(** * Option-pricing core of stockr: Black-Scholes-Merton, CRR binomial
    lattice, simplified Bates jump diffusion and the model comparator of
    [get_options_data].

    Floating-point numbers are modelled as real numbers.  A pricer returns
    [option R]: [None] stands for the Python exception raised by the
    (unguarded) arithmetic, i.e. [ZeroDivisionError] for a float division
    by zero and [ValueError] for [math.log] of a non-positive number or
    [math.sqrt] of a negative one.  Overflow of [math.exp] and [**] is not
    modelled.  [scipy.stats.norm.cdf] is external: it is a parameter
    [norm_cdf] of the development, characterised by the properties of the
    standard normal distribution function that the proofs use
    ([cdf_like]). *)

From Stdlib Require Import Reals Lra Psatz String Ascii List Arith Bool.
Import ListNotations.
Open Scope R_scope.

(** ** Python arithmetic that may raise *)

Definition obind {A B : Type} (m : option A) (k : A -> option B) : option B :=
  match m with Some a => k a | None => None end.

Notation "x <- c ;; k" := (obind c (fun x => k))
  (at level 61, c at next level, right associativity).

(** [x / y] on floats: [ZeroDivisionError] when [y == 0.0]. *)
Definition py_div (x y : R) : option R :=
  if Req_EM_T y 0 then None else Some (x / y).

(** [math.sqrt]: [ValueError] on a negative argument. *)
Definition py_sqrt (x : R) : option R :=
  if Rlt_dec x 0 then None else Some (sqrt x).

(** [math.log]: [ValueError] on a non-positive argument. *)
Definition py_log (x : R) : option R :=
  if Rle_dec x 0 then None else Some (ln x).

(** ** Strings: [option_type.lower() == 'call'] *)

(** [str.lower] on the ASCII range (the only letters of ['call']). *)
Definition lower_char (c : ascii) : ascii :=
  let n := nat_of_ascii c in
  if Nat.leb 65 n && Nat.leb n 90 then ascii_of_nat (n + 32) else c.

Fixpoint lower (s : string) : string :=
  match s with
  | EmptyString => EmptyString
  | String c s' => String (lower_char c) (lower s')
  end.

Definition is_call (option_type : string) : bool :=
  String.eqb (lower option_type) "call".

(** ** Distribution functions *)

(** The properties of [norm.cdf] the proofs rely on. *)
Record cdf_like (F : R -> R) : Prop := {
  cdf_pos : forall x, 0 < F x;
  cdf_sym : forall x, F (- x) = 1 - F x;
  cdf_strict : forall x y, x < y -> F x < F y
}.

(** A concrete [cdf_like] function (the logistic distribution), used to
    instantiate the pricers on concrete inputs. *)
Definition logistic (x : R) : R := 1 / (1 + exp (- x)).

Section Pricers.

Variable norm_cdf : R -> R.

(** ** [stockr/models/black_scholes.py] *)

Definition black_scholes_merton (S K T r sigma : R) (option_type : string)
    : option R :=
  (* Convert volatility from percentage to decimal *)
  let sigma := sigma / 100 in
  SK <- py_div S K ;;
  l <- py_log SK ;;
  sT <- py_sqrt T ;;
  d1 <- py_div (l + (r + 0.5 * sigma ^ 2) * T) (sigma * sT) ;;
  let d2 := d1 - sigma * sT in
  if is_call option_type
  then Some (S * norm_cdf d1 - K * exp ((- r) * T) * norm_cdf d2)
  else Some (K * exp ((- r) * T) * norm_cdf (- d2) - S * norm_cdf (- d1)).

(** The closed-form formula of the spec (section 4.1), for an already
    decimal volatility [sigma] and a discount rate [rate]; the same
    Python operations, hence the same exceptions. *)
Definition analytic_formula (S K T rate sigma : R) (option_type : string)
    : option R :=
  SK <- py_div S K ;;
  l <- py_log SK ;;
  sT <- py_sqrt T ;;
  d1 <- py_div (l + (rate + 0.5 * sigma ^ 2) * T) (sigma * sT) ;;
  let d2 := d1 - sigma * sT in
  if is_call option_type
  then Some (S * norm_cdf d1 - K * exp ((- rate) * T) * norm_cdf d2)
  else Some (K * exp ((- rate) * T) * norm_cdf (- d2) - S * norm_cdf (- d1)).

(** [if sigma > 1: sigma = sigma / 100], shared by the lattice and the
    jump-diffusion pricers. *)
Definition vol_to_decimal (sigma : R) : R :=
  if Rlt_dec 1 sigma then sigma / 100 else sigma.

(** ** [stockr/models/bates.py] *)

(** The body of [for n in range(max_jumps)]; [option_price] is the
    running sum. *)
Definition bates_term (S K T r sigma lambda_param mu_j sigma_j
    adjusted_drift : R) (option_type : string) (n : nat) (option_price : R)
    : option R :=
  (* Probability of exactly n jumps during time T *)
  let jump_prob :=
    (lambda_param * T) ^ n * exp ((- lambda_param) * T) / INR (fact n) in
  (* Skip if probability is negligible *)
  if Rlt_dec jump_prob 1e-10 then Some option_price
  else
    v <- py_div (INR n * sigma_j ^ 2) T ;;
    adjusted_sigma <- py_sqrt (sigma ^ 2 + v) ;;
    let adjusted_S := S * exp (INR n * mu_j) in
    SK <- py_div adjusted_S K ;;
    l <- py_log SK ;;
    sT <- py_sqrt T ;;
    d1 <- py_div (l + (adjusted_drift + 0.5 * adjusted_sigma ^ 2) * T)
                 (adjusted_sigma * sT) ;;
    let d2 := d1 - adjusted_sigma * sT in
    let bs_price :=
      if is_call option_type
      then adjusted_S * norm_cdf d1 - K * exp ((- r) * T) * norm_cdf d2
      else K * exp ((- r) * T) * norm_cdf (- d2) - adjusted_S * norm_cdf (- d1) in
    Some (option_price + jump_prob * bs_price).

Fixpoint bates_loop (S K T r sigma lambda_param mu_j sigma_j
    adjusted_drift : R) (option_type : string) (ns : list nat)
    (option_price : R) : option R :=
  match ns with
  | [] => Some option_price
  | n :: ns' =>
      acc <- bates_term S K T r sigma lambda_param mu_j sigma_j adjusted_drift
               option_type n option_price ;;
      bates_loop S K T r sigma lambda_param mu_j sigma_j adjusted_drift
        option_type ns' acc
  end.

Definition bates_simplified (S K T r sigma lambda_param mu_j sigma_j : R)
    (option_type : string) : option R :=
  let sigma := vol_to_decimal sigma in
  let max_jumps := 10%nat in
  let option_price := 0 in
  (* Adjust drift to ensure risk-neutral pricing *)
  let adjusted_drift :=
    r - lambda_param * (exp (mu_j + 0.5 * sigma_j ^ 2) - 1) in
  bates_loop S K T r sigma lambda_param mu_j sigma_j adjusted_drift
    option_type (seq 0 max_jumps) option_price.

Definition bates_approximation (S K T r sigma : R) (option_type : string)
    : option R :=
  bates_simplified S K T r sigma 2.0 (-0.02) 0.05 option_type.

(** The mixture as the spec (section 4.3) words it: every term is the
    analytic formula with [drift_adj] as the rate, discount included. *)
Definition bates_spec_term (S K T sigma lambda_param mu_j sigma_j
    drift_adj : R) (option_type : string) (n : nat) (price : R)
    : option R :=
  let P := (lambda_param * T) ^ n * exp ((- lambda_param) * T) / INR (fact n) in
  if Rlt_dec P 1e-10 then Some price
  else
    v <- py_div (INR n * sigma_j ^ 2) T ;;
    sigma_n <- py_sqrt (sigma ^ 2 + v) ;;
    let S_n := S * exp (INR n * mu_j) in
    a <- analytic_formula S_n K T drift_adj sigma_n option_type ;;
    Some (price + P * a).

Fixpoint bates_spec_loop (S K T sigma lambda_param mu_j sigma_j
    drift_adj : R) (option_type : string) (ns : list nat) (price : R)
    : option R :=
  match ns with
  | [] => Some price
  | n :: ns' =>
      acc <- bates_spec_term S K T sigma lambda_param mu_j sigma_j drift_adj
               option_type n price ;;
      bates_spec_loop S K T sigma lambda_param mu_j sigma_j drift_adj
        option_type ns' acc
  end.

Definition bates_spec_drift_discount (S K T r sigma lambda_param mu_j
    sigma_j : R) (option_type : string) : option R :=
  let sigma := vol_to_decimal sigma in
  let drift_adj := r - lambda_param * (exp (mu_j + 0.5 * sigma_j ^ 2) - 1) in
  bates_spec_loop S K T sigma lambda_param mu_j sigma_j drift_adj
    option_type (seq 0 10) 0.

End Pricers.

(** ** [stockr/models/binomial.py] *)

(** [option_values[j] = x] on a numpy array; every index the pricer
    writes or reads is in range ([j + 1 <= i + 1 <= steps]). *)
Fixpoint list_set (l : list R) (j : nat) (x : R) : list R :=
  match l, j with
  | [], _ => []
  | _ :: t, O => x :: t
  | h :: t, Datatypes.S j' => h :: list_set t j' x
  end.

(** The body of [for j in range(i + 1)] at step [i]. *)
Definition node_update (S K u d p df : R) (option_type : string)
    (american : bool) (i : nat) (option_values : list R) (j : nat)
    : list R :=
  (* Calculate the asset price at this node *)
  let asset_price := S * u ^ (i - j)%nat * d ^ j in
  (* Calculate the option value at this node (discounted expected value) *)
  let option_value :=
    df * (p * nth j option_values 0 + (1 - p) * nth (j + 1) option_values 0) in
  (* For American options, check if early exercise is optimal *)
  let option_value :=
    if american then
      let exercise_value :=
        if is_call option_type then Rmax 0 (asset_price - K)
        else Rmax 0 (K - asset_price) in
      Rmax option_value exercise_value
    else option_value in
  list_set option_values j option_value.

Definition inner_loop (S K u d p df : R) (option_type : string)
    (american : bool) (i : nat) (option_values : list R) : list R :=
  fold_left (node_update S K u d p df option_type american i)
    (seq 0 (i + 1)) option_values.

(** [for i in range(steps - 1, -1, -1)]: [outer_loop body steps] runs the
    body at [i = steps - 1, ..., 0]. *)
Fixpoint outer_loop (body : nat -> list R -> list R) (k : nat)
    (option_values : list R) : list R :=
  match k with
  | O => option_values
  | Datatypes.S i => outer_loop body i (body i option_values)
  end.

Definition binomial_option_price (S K T r sigma : R) (option_type : string)
    (steps : nat) (american : bool) (dividend_yield : R) : option R :=
  (* Convert volatility from percentage to decimal if needed *)
  let sigma := vol_to_decimal sigma in
  dt <- py_div T (INR steps) ;;
  sdt <- py_sqrt dt ;;
  let u := exp (sigma * sdt) in
  d <- py_div 1 u ;;
  let a := exp ((r - dividend_yield) * dt) in
  p <- py_div (a - d) (u - d) ;;
  let df := exp ((- r) * dt) in
  let prices :=
    map (fun i => S * u ^ (steps - i)%nat * d ^ i) (seq 0 (steps + 1)) in
  let option_values :=
    if is_call option_type then map (fun x => Rmax 0 (x - K)) prices
    else map (fun x => Rmax 0 (K - x)) prices in
  let option_values :=
    outer_loop (inner_loop S K u d p df option_type american) steps
      option_values in
  Some (nth 0 option_values 0).

(** The intrinsic value [max(0, price - K)] (call) or [max(0, K - price)]
    (put). *)
Definition intrinsic (K : R) (option_type : string) (price : R) : R :=
  if is_call option_type then Rmax 0 (price - K) else Rmax 0 (K - price).

(** The CRR valuation as the spec (section 4.2) words it:
    [crr_value ... steps k j] is the value at node [j] of step
    [steps - k]; terminal payoffs at [k = 0], then backward induction. *)
Fixpoint crr_value (S K u d p discount : R) (option_type : string)
    (american : bool) (steps k j : nat) : R :=
  match k with
  | O => intrinsic K option_type (S * u ^ (steps - j)%nat * d ^ j)
  | Datatypes.S k' =>
      let i := (steps - Datatypes.S k')%nat in
      let cont :=
        discount * (p * crr_value S K u d p discount option_type american steps k' j
                    + (1 - p) * crr_value S K u d p discount option_type american
                                  steps k' (j + 1)) in
      if american
      then Rmax cont (intrinsic K option_type (S * u ^ (i - j)%nat * d ^ j))
      else cont
  end.

(** The root value with the CRR parameters of the spec, for a decimal
    volatility [sigma] and dividend yield [q]. *)
Definition crr_reference (S K T r sigma : R) (option_type : string)
    (steps : nat) (american : bool) (q : R) : R :=
  let dt := T / INR steps in
  let u := exp (sigma * sqrt dt) in
  let d := 1 / u in
  let p := (exp ((r - q) * dt) - d) / (u - d) in
  let discount := exp ((- r) * dt) in
  crr_value S K u d p discount option_type american steps steps 0.

(** What call minus put comes to in the jump mixture: over the kept jump
    counts [n] (those with [jump_prob >= 1e-10]), [jump_prob] times the
    forward [S e^(n mu_j) - K e^(-r T)]. *)
Fixpoint bates_kept_forward (S K T r lambda_param mu_j : R) (ns : list nat) : R :=
  match ns with
  | [] => 0
  | n :: ns' =>
      let jump_prob :=
        (lambda_param * T) ^ n * exp ((- lambda_param) * T) / INR (fact n) in
      (if Rlt_dec jump_prob 1e-10 then 0
       else jump_prob * (S * exp (INR n * mu_j) - K * exp ((- r) * T)))
      + bates_kept_forward S K T r lambda_param mu_j ns'
  end.

(** The asset price at node [j] of the lattice [k] steps before expiry
    ([S * u ** (i - j) * d ** j] with [i = steps - k]). *)
Definition node_price (S u d : R) (steps k j : nat) : R :=
  S * u ^ (steps - k - j)%nat * d ^ j.

(** ** [stockr/analysis/options.py]: the pricing part of [get_options_data] *)

(** Python floats as the sanity check sees them: finite, infinite, NaN. *)
Inductive flt :=
| Fin (x : R)
| Inf (negative : bool)
| NaN.

(** [x - a] for a finite [a]. *)
Definition flt_sub (x : flt) (a : R) : flt :=
  match x with
  | Fin y => Fin (y - a)
  | Inf neg => Inf neg
  | NaN => NaN
  end.

Definition flt_abs (x : flt) : flt :=
  match x with
  | Fin y => Fin (Rabs y)
  | Inf _ => Inf false
  | NaN => NaN
  end.

(** [x > a] for a finite [a]; every comparison with NaN is false. *)
Definition flt_gt (x : flt) (a : R) : bool :=
  match x with
  | Fin y => if Rlt_dec a y then true else false
  | Inf neg => negb neg
  | NaN => false
  end.

(** [np.isfinite] *)
Definition isfinite (x : flt) : bool :=
  match x with Fin _ => true | _ => false end.

(** An f-string: literal text and interpolated float values. *)
Inductive piece :=
| Lit (s : string)
| Fmt (v : flt).

Definition fstring := list piece.

(** Lines 153-159: [if (abs(bates - bsm) > bsm) or not np.isfinite(bates):
    bates = bsm; errors.append(f"...{bates}")], once per leg, with the
    leg's literal message text [msg]. *)
Definition sanity_check (msg : string) (bsm_price : R) (bates_price : flt)
    (errors : list fstring) : flt * list fstring :=
  if flt_gt (flt_abs (flt_sub bates_price bsm_price)) bsm_price
     || negb (isfinite bates_price)
  then
    let bates_price := Fin bsm_price in
    (bates_price, errors ++ [[Lit msg; Fmt bates_price]])
  else (bates_price, errors).

Definition call_msg : string := "    Bates call price too far from BSM: ".
Definition put_msg : string := "    Bates put price too far from BSM: ".
Definition bates_failed_msg : fstring := [Lit "Bates process did not converge"].

(** The model prices of one leg of [call_option] / [put_option]. *)
Record leg_prices := {
  theoretical_price : R;
  binomial_price : R;
  bates_price : flt
}.

Section Comparator.

Variable norm_cdf : R -> R.

(** Lines 88-198 of [get_options_data], after the market data (strikes,
    days to expiration, risk-free rate) has been retrieved.  An exception
    of the BSM or binomial pricer propagates ([None]); an exception of the
    Bates pricer is caught by the inner [try]. *)
Definition price_options (current_price call_strike put_strike T
    risk_free_rate annual_volatility : R)
    : option (leg_prices * leg_prices * list fstring) :=
  let errors : list fstring := [] in
  bsm_call_price <- black_scholes_merton norm_cdf current_price call_strike T
                      risk_free_rate annual_volatility "call" ;;
  bsm_put_price <- black_scholes_merton norm_cdf current_price put_strike T
                     risk_free_rate annual_volatility "put" ;;
  bin_call_price <- binomial_option_price current_price call_strike T
                      risk_free_rate (annual_volatility / 100) "call" 100 false 0 ;;
  bin_put_price <- binomial_option_price current_price put_strike T
                     risk_free_rate (annual_volatility / 100) "put" 100 false 0 ;;
  let '(bates_call_price, bates_put_price, errors) :=
    match bates_approximation norm_cdf current_price call_strike T
            risk_free_rate annual_volatility "call",
          bates_approximation norm_cdf current_price put_strike T
            risk_free_rate annual_volatility "put" with
    | Some bc, Some bp =>
        let '(bates_call_price, errors) :=
          sanity_check call_msg bsm_call_price (Fin bc) errors in
        let '(bates_put_price, errors) :=
          sanity_check put_msg bsm_put_price (Fin bp) errors in
        (bates_call_price, bates_put_price, errors)
    | _, _ =>
        (Fin bsm_call_price, Fin bsm_put_price, errors ++ [bates_failed_msg])
    end in
  Some ({| theoretical_price := bsm_call_price;
           binomial_price := bin_call_price;
           bates_price := bates_call_price |},
        {| theoretical_price := bsm_put_price;
           binomial_price := bin_put_price;
           bates_price := bates_put_price |},
        errors).

End Comparator.

(** ** [stockr/analysis/options.py]: the market-data part of [get_options_data] *)





Section Expiration.

(** [(dt.datetime.strptime(exp, '%Y-%m-%d').date() - today).days];
    [None] for a date string [strptime] refuses. *)
Variable days_to_expiration : string -> option Z.

(** [for exp in expirations: ... if days_to_expiration >= target_days:
    selected_expiration = exp; break]; [Some None] when the loop ends
    without a [break]. *)
Fixpoint first_expiration (target_days : Z) (expirations : list string)
    : option (option string) :=
  match expirations with
  | [] => Some None
  | exp :: rest =>
      d <- days_to_expiration exp ;;
      if Z.leb target_days d then Some (Some exp)
      else first_expiration target_days rest
  end.

(** Lines 39-58: [ValueError] when there are no expirations; the first one
    at least 30 days out, otherwise [expirations[-1]]. *)
Definition select_expiration (expirations : list string) : option string :=
  match expirations with
  | [] => None
  | _ =>
      let target_days := 30%Z in
      selected_expiration <- first_expiration target_days expirations ;;
      match selected_expiration with
      | Some exp => Some exp
      | None => Some (last expirations EmptyString)
      end
  end.

End Expiration.

(** ** [stockr/analysis/volatility.py]: [calculate_volatility] *)

(** [x / prev - 1] on floats, as [pct_change] computes it: pandas does not
    raise on a zero [prev] but gives [inf] (or [-inf]) and [nan] for
    [0 / 0]. *)
Definition pct_step (prev x : R) : flt :=
  if Req_EM_T prev 0 then
    (if Req_EM_T x 0 then NaN else Inf (if Rlt_dec x 0 then true else false))
  else Fin (x / prev - 1).

Fixpoint pct_pairs (prev : R) (xs : list R) : list flt :=
  match xs with
  | [] => []
  | x :: xs' => pct_step prev x :: pct_pairs x xs'
  end.

(** [Series.pct_change()]: [nan] in the first row. *)
Definition pct_change (xs : list R) : list flt :=
  match xs with
  | [] => []
  | x :: xs' => NaN :: pct_pairs x xs'
  end.

(** [Series.dropna()] *)
Definition dropna (xs : list flt) : list flt :=
  filter (fun x => match x with NaN => false | _ => true end) xs.

(** The values of a series without [nan], or [None] if one is infinite. *)
Fixpoint finite_values (xs : list flt) : option (list R) :=
  match xs with
  | [] => Some []
  | Fin x :: xs' => ys <- finite_values xs' ;; Some (x :: ys)
  | _ :: _ => None
  end.

Definition sum_list (xs : list R) : R := fold_right Rplus 0 xs.

(** [Series.std()] ([ddof=1]) of a series without [nan]: [nan] with fewer
    than two values or with an infinite one. *)
Definition series_std (xs : list flt) : flt :=
  match finite_values xs with
  | None => NaN
  | Some ys =>
      let n := length ys in
      if Nat.ltb n 2 then NaN
      else
        let mean := sum_list ys / INR n in
        Fin (sqrt (sum_list (map (fun y => (y - mean) ^ 2) ys) / INR (n - 1)))
  end.

(** [x * c] for a float [x] and a positive constant [c]. *)
Definition flt_mul (x : flt) (c : R) : flt :=
  match x with
  | Fin y => Fin (y * c)
  | Inf neg => Inf neg
  | NaN => NaN
  end.

(** [Series.tail(n)] *)
Definition tail (n : nat) (xs : list R) : list R := skipn (length xs - n) xs.

(** [calculate_volatility(historical_data, trading_days)] on the [Close]
    column [closes] (the warning it prints is not modelled). *)
Definition calculate_volatility (closes : list R) (trading_days : nat) : flt :=
  (* Ensure we have enough data *)
  let trading_days :=
    if Nat.ltb (length closes) trading_days then length closes else trading_days in
  (* Calculate daily returns *)
  let closing_prices := tail trading_days closes in
  let daily_returns := dropna (pct_change closing_prices) in
  (* Calculate standard deviation of daily returns *)
  let daily_std := series_std daily_returns in
  (* Annualize the volatility *)
  let annualized_volatility := flt_mul daily_std (sqrt 252) in
  (* Convert to percentage *)
  flt_mul annualized_volatility 100.


(** [option_type] as the pricers see it: ['call'] when
    [option_type.lower() == 'call'], ['put'] otherwise. *)
Definition priced_kind (option_type : string) : string :=
  if String.eqb (lower option_type) "call" then "call" else "put".

(** The spec's divergence test of the jump price against the analytic
    price: deviation beyond 100% of the analytic price, or non-finite. *)
Definition divergent (bsm_price : R) (bates_price : flt) : Prop :=
  match bates_price with
  | Fin x => bsm_price < Rabs (x - bsm_price)
  | _ => True
  end.

(** * Proofs *)

(** ** Python arithmetic *)

Ltac obind_simpl := cbv beta iota delta [obind].

Lemma py_div_ok x y : y <> 0 -> py_div x y = Some (x / y).
Proof. intros H. unfold py_div. destruct (Req_EM_T y 0); [contradiction | reflexivity]. Qed.

Lemma py_div_zero x : py_div x 0 = None.
Proof. unfold py_div. destruct (Req_EM_T 0 0); [reflexivity | contradiction]. Qed.

Lemma py_sqrt_ok x : 0 <= x -> py_sqrt x = Some (sqrt x).
Proof. intros H. unfold py_sqrt. destruct (Rlt_dec x 0); [lra | reflexivity]. Qed.

Lemma py_sqrt_neg x : x < 0 -> py_sqrt x = None.
Proof. intros H. unfold py_sqrt. destruct (Rlt_dec x 0); [reflexivity | lra]. Qed.

Lemma py_log_ok x : 0 < x -> py_log x = Some (ln x).
Proof. intros H. unfold py_log. destruct (Rle_dec x 0); [lra | reflexivity]. Qed.

Lemma R_half : 0.5 = / 2.
Proof. lra. Qed.

Lemma obind_some {A} (m : option A) : obind m Some = m.
Proof. destruct m; reflexivity. Qed.

Lemma is_call_call : is_call "call" = true.
Proof. reflexivity. Qed.

Lemma is_call_put : is_call "put" = false.
Proof. reflexivity. Qed.

Lemma is_call_priced_kind ot : is_call (priced_kind ot) = is_call ot.
Proof.
  unfold priced_kind. fold (is_call ot).
  destruct (is_call ot); reflexivity.
Qed.

(** ** The logistic function is [cdf_like] *)

Lemma logistic_cdf_like : cdf_like logistic.
Proof.
  unfold logistic. split.
  - intros x. pose proof (exp_pos (- x)).
    apply Rdiv_lt_0_compat; lra.
  - intros x. rewrite Ropp_involutive, exp_Ropp.
    pose proof (exp_pos x). pose proof (Rinv_0_lt_compat (exp x) H).
    field. lra.
  - intros x y Hxy.
    assert (Hlt : exp (- y) < exp (- x)) by (apply exp_increasing; lra).
    pose proof (exp_pos (- y)).
    unfold Rdiv. rewrite !Rmult_1_l.
    apply Rinv_lt_contravar; nra.
Qed.

(** ** The analytic formula on valid inputs *)

Section Analytic.

Variable F : R -> R.

Definition bs_d1 (S K T rate sigma : R) : R :=
  (ln (S / K) + (rate + 0.5 * sigma ^ 2) * T) / (sigma * sqrt T).

Definition bs_d2 (S K T rate sigma : R) : R :=
  bs_d1 S K T rate sigma - sigma * sqrt T.

Lemma analytic_formula_valid S K T rate sigma ot :
  0 < S -> 0 < K -> 0 < T -> sigma <> 0 ->
  analytic_formula F S K T rate sigma ot =
  Some (if is_call ot
        then S * F (bs_d1 S K T rate sigma)
             - K * exp ((- rate) * T) * F (bs_d2 S K T rate sigma)
        else K * exp ((- rate) * T) * F (- bs_d2 S K T rate sigma)
             - S * F (- bs_d1 S K T rate sigma)).
Proof.
  intros HS HK HT Hs. unfold analytic_formula.
  rewrite py_div_ok by lra. obind_simpl.
  rewrite py_log_ok by (apply Rdiv_lt_0_compat; lra). obind_simpl.
  rewrite py_sqrt_ok by lra. obind_simpl.
  assert (Hsq : 0 < sqrt T) by (apply sqrt_lt_R0; lra).
  rewrite py_div_ok by (apply Rmult_integral_contrapositive; split; lra).
  obind_simpl. unfold bs_d2, bs_d1. destruct (is_call ot); reflexivity.
Qed.

(** At the money with [S = K = T = 1] and [rate = 0] the call is worth
    [F (s/2) - F (-(s/2))], strictly increasing in [s]. *)
Lemma analytic_atm_call s :
  0 < s -> analytic_formula F 1 1 1 0 s "call" = Some (F (s / 2) - F (- (s / 2))).
Proof.
  intros Hs. rewrite analytic_formula_valid by lra. rewrite is_call_call.
  unfold bs_d2, bs_d1. rewrite sqrt_1.
  replace (1 / 1) with 1 by field. rewrite ln_1, R_half.
  replace ((0 + (0 + / 2 * s ^ 2) * 1) / (s * 1)) with (s / 2) by (field; lra).
  replace (s / 2 - s * 1) with (- (s / 2)) by field.
  rewrite Ropp_0, Rmult_0_l, exp_0. f_equal. ring.
Qed.

Lemma analytic_atm_call_strict s1 s2 :
  cdf_like F -> 0 < s1 -> s1 < s2 ->
  analytic_formula F 1 1 1 0 s1 "call" <> analytic_formula F 1 1 1 0 s2 "call".
Proof.
  intros HF H1 H12. rewrite !analytic_atm_call by lra.
  intros Heq. injection Heq as Heq.
  assert (A : F (s1 / 2) < F (s2 / 2)) by (apply (cdf_strict F HF); lra).
  assert (B : F (- (s2 / 2)) < F (- (s1 / 2))) by (apply (cdf_strict F HF); lra).
  lra.
Qed.

End Analytic.

(** ** Option-kind dispatch *)

Lemma bates_loop_priced_kind F S K T r sigma l mu sj adj ot ns acc :
  bates_loop F S K T r sigma l mu sj adj ot ns acc =
  bates_loop F S K T r sigma l mu sj adj (priced_kind ot) ns acc.
Proof.
  revert acc. induction ns as [|n ns IH]; intros acc; [reflexivity|].
  simpl. unfold bates_term. rewrite is_call_priced_kind.
  destruct (Rlt_dec _ 1e-10); [apply IH|].
  repeat (match goal with |- context [obind ?m _] => destruct m end;
          obind_simpl; try reflexivity).
  apply IH.
Qed.

(** C9: each pricer looks at [option_type] only through
    [option_type.lower() == 'call']: every string is priced as ['call']
    or, failing that, as ['put'], with no error of its own. *)
Theorem option_type_dispatch (norm_cdf : R -> R) (option_type : string) :
  (forall S K T r sigma,
     black_scholes_merton norm_cdf S K T r sigma option_type =
     black_scholes_merton norm_cdf S K T r sigma (priced_kind option_type)) /\
  (forall S K T r sigma steps american dividend_yield,
     binomial_option_price S K T r sigma option_type steps american dividend_yield =
     binomial_option_price S K T r sigma (priced_kind option_type) steps
       american dividend_yield) /\
  (forall S K T r sigma lambda_param mu_j sigma_j,
     bates_simplified norm_cdf S K T r sigma lambda_param mu_j sigma_j option_type =
     bates_simplified norm_cdf S K T r sigma lambda_param mu_j sigma_j
       (priced_kind option_type)).
Proof.
  split; [|split].
  - intros. unfold black_scholes_merton. rewrite is_call_priced_kind. reflexivity.
  - intros. unfold binomial_option_price, inner_loop, node_update.
    rewrite !is_call_priced_kind. reflexivity.
  - intros. unfold bates_simplified. apply bates_loop_priced_kind.
Qed.

(** ** The comparator's sanity fallback *)

Lemma sanity_condition_iff a b :
  (flt_gt (flt_abs (flt_sub b a)) a || negb (isfinite b))%bool = true <->
  divergent a b.
Proof.
  destruct b as [x|neg|]; simpl.
  - destruct (Rlt_dec a (Rabs (x - a))); simpl; split; intros H; auto;
      try discriminate; contradiction.
  - split; auto.
  - split; auto.
Qed.

Lemma sanity_check_divergent msg a b errors :
  divergent a b ->
  sanity_check msg a b errors = (Fin a, errors ++ [[Lit msg; Fmt (Fin a)]]).
Proof.
  intros H. unfold sanity_check.
  apply sanity_condition_iff in H. rewrite H. reflexivity.
Qed.

Lemma sanity_check_close msg a b errors :
  ~ divergent a b -> sanity_check msg a b errors = (b, errors).
Proof.
  intros H. unfold sanity_check.
  destruct (flt_gt (flt_abs (flt_sub b a)) a || negb (isfinite b))%bool eqn:E.
  - apply sanity_condition_iff in E. contradiction.
  - reflexivity.
Qed.

Lemma price_options_result F S Kc Kp T r vol c p errs :
  price_options F S Kc Kp T r vol = Some (c, p, errs) ->
  binomial_option_price S Kc T r (vol / 100) "call" 100 false 0 =
    Some (binomial_price c) /\
  binomial_option_price S Kp T r (vol / 100) "put" 100 false 0 =
    Some (binomial_price p) /\
  forall bc bp,
    bates_approximation F S Kc T r vol "call" = Some bc ->
    bates_approximation F S Kp T r vol "put" = Some bp ->
    exists errs1,
      sanity_check call_msg (theoretical_price c) (Fin bc) [] =
        (bates_price c, errs1) /\
      sanity_check put_msg (theoretical_price p) (Fin bp) errs1 =
        (bates_price p, errs).
Proof.
  unfold price_options.
  destruct (black_scholes_merton F S Kc T r vol "call") as [bc0|]; [|discriminate].
  destruct (black_scholes_merton F S Kp T r vol "put") as [bp0|]; [|discriminate].
  destruct (binomial_option_price S Kc T r (vol / 100) "call" 100 false 0)
    as [nc|]; [|discriminate].
  destruct (binomial_option_price S Kp T r (vol / 100) "put" 100 false 0)
    as [np|]; [|discriminate].
  obind_simpl. intros H.
  split; [|split].
  - destruct (bates_approximation F S Kc T r vol "call"),
      (bates_approximation F S Kp T r vol "put");
    try destruct (sanity_check _ _ _ _); try destruct (sanity_check _ _ _ _);
    injection H as <- <- <-; reflexivity.
  - destruct (bates_approximation F S Kc T r vol "call"),
      (bates_approximation F S Kp T r vol "put");
    try destruct (sanity_check _ _ _ _); try destruct (sanity_check _ _ _ _);
    injection H as <- <- <-; reflexivity.
  - intros bc bp Hc Hp. rewrite Hc, Hp in H.
    destruct (sanity_check call_msg bc0 (Fin bc) []) as [jc e1] eqn:E1.
    destruct (sanity_check put_msg bp0 (Fin bp) e1) as [jp e2] eqn:E2.
    injection H as <- <- <-. simpl. exists e1. split; assumption.
Qed.

(** C4: per leg, a jump price that diverges from the analytic price (by
    more than the analytic price, or non-finite) is replaced by the
    analytic price and exactly one warning is appended; otherwise price and
    warnings are left alone.  The comparator applies this to the call and
    then to the put leg, and passes the lattice prices through untouched.
    With analytic price 5 and jump price 12 the leg gets 5 and one
    warning. *)
Theorem comparator_jump_fallback (norm_cdf : R -> R) :
  (forall msg bsm_price bates_price errors,
     (divergent bsm_price bates_price ->
      sanity_check msg bsm_price bates_price errors =
        (Fin bsm_price, errors ++ [[Lit msg; Fmt (Fin bsm_price)]])) /\
     (~ divergent bsm_price bates_price ->
      sanity_check msg bsm_price bates_price errors = (bates_price, errors))) /\
  (forall S Kc Kp T r vol c p errs,
     price_options norm_cdf S Kc Kp T r vol = Some (c, p, errs) ->
     binomial_option_price S Kc T r (vol / 100) "call" 100 false 0 =
       Some (binomial_price c) /\
     binomial_option_price S Kp T r (vol / 100) "put" 100 false 0 =
       Some (binomial_price p) /\
     forall bc bp,
       bates_approximation norm_cdf S Kc T r vol "call" = Some bc ->
       bates_approximation norm_cdf S Kp T r vol "put" = Some bp ->
       exists errs1,
         sanity_check call_msg (theoretical_price c) (Fin bc) [] =
           (bates_price c, errs1) /\
         sanity_check put_msg (theoretical_price p) (Fin bp) errs1 =
           (bates_price p, errs)) /\
  (forall msg errors,
     sanity_check msg 5 (Fin 12) errors =
       (Fin 5, errors ++ [[Lit msg; Fmt (Fin 5)]])).
Proof.
  split; [|split].
  - intros msg a b errors. split.
    + apply sanity_check_divergent.
    + apply sanity_check_close.
  - intros. apply price_options_result. assumption.
  - intros msg errors. apply sanity_check_divergent. simpl.
    rewrite Rabs_right; lra.
Qed.

Lemma comparator_jump_fallback_witness :
  sanity_check call_msg 5 (Fin 12) [] = (Fin 5, [[Lit call_msg; Fmt (Fin 5)]]) /\
  sanity_check put_msg 5 (Fin 5) [] = (Fin 5, []).
Proof.
  split.
  - apply (proj1 (proj1 (comparator_jump_fallback logistic) call_msg 5 (Fin 12) [])).
    simpl. rewrite Rabs_right; lra.
  - apply (proj2 (proj1 (comparator_jump_fallback logistic) put_msg 5 (Fin 5) [])).
    simpl. replace (5 - 5) with 0 by ring. rewrite Rabs_R0. lra.
Defined.

(** C10: the warning of a triggered fallback is formatted after the
    reassignment, so it interpolates the analytic price; for a
    non-negative analytic price that is never the jump price that
    triggered the fallback. *)
Theorem fallback_warning_reports_bsm_price msg bsm_price bates_price errors :
  divergent bsm_price bates_price ->
  exists warning,
    sanity_check msg bsm_price bates_price errors =
      (Fin bsm_price, errors ++ [warning]) /\
    warning = [Lit msg; Fmt (Fin bsm_price)] /\
    (0 <= bsm_price -> Fin bsm_price <> bates_price).
Proof.
  intros H. exists [Lit msg; Fmt (Fin bsm_price)].
  split; [apply sanity_check_divergent; assumption|]. split; [reflexivity|].
  intros Hpos Heq. subst bates_price. simpl in H.
  replace (bsm_price - bsm_price) with 0 in H by ring.
  rewrite Rabs_R0 in H. lra.
Qed.

Lemma fallback_warning_reports_bsm_price_witness :
  exists warning,
    sanity_check call_msg 5 (Fin 12) [] = (Fin 5, [] ++ [warning]) /\
    warning = [Lit call_msg; Fmt (Fin 5)] /\
    (0 <= 5 -> Fin 5 <> Fin 12).
Proof.
  apply fallback_warning_reports_bsm_price. simpl. rewrite Rabs_right; lra.
Defined.

(** ** Volatility normalisation of the analytic pricer *)

Lemma bsm_as_analytic F S K T r sigma ot :
  black_scholes_merton F S K T r sigma ot = analytic_formula F S K T r (sigma / 100) ot.
Proof. reflexivity. Qed.

(** C2 (as amended): [black_scholes_merton] divides every volatility by 100,
    decimal ones ([sigma <= 1]) included, and then applies the closed-form
    formula. *)
Theorem bsm_always_divides_sigma_by_100 norm_cdf S K T r sigma option_type :
  black_scholes_merton norm_cdf S K T r sigma option_type =
  analytic_formula norm_cdf S K T r (sigma / 100) option_type.
Proof. unfold black_scholes_merton, analytic_formula. reflexivity. Qed.

(** For every [cdf_like] distribution function, [sigma = 1/2] (decimal
    form) is not priced with [sigma = 1/2]. *)
Lemma bsm_decimal_sigma_rescaled F :
  cdf_like F ->
  black_scholes_merton F 1 1 1 0 (1 / 2) "call" <> analytic_formula F 1 1 1 0 (1 / 2) "call".
Proof.
  intros HF. rewrite bsm_as_analytic.
  apply analytic_atm_call_strict; [assumption | lra | lra].
Qed.

(** C2 counterexample: with [S = K = T = 1], [r = 0] and the decimal
    volatility [1/2], the call is priced at volatility [1/200]. *)
Lemma bsm_decimal_sigma_counterexample :
  ~ (forall norm_cdf, cdf_like norm_cdf ->
     forall S K T r sigma option_type, sigma <= 1 ->
       black_scholes_merton norm_cdf S K T r sigma option_type =
       analytic_formula norm_cdf S K T r sigma option_type).
Proof.
  intros H. apply (bsm_decimal_sigma_rescaled logistic logistic_cdf_like).
  apply H; [apply logistic_cdf_like | lra].
Qed.

(** ** Put-call parity *)

(** C7: on a valid input both legs are priced and
    [call - put = S - K e^(-r T)]. *)
Theorem bsm_put_call_parity norm_cdf S K T r sigma :
  cdf_like norm_cdf -> 0 < S -> 0 < K -> 0 < T -> 0 < sigma ->
  exists call put,
    black_scholes_merton norm_cdf S K T r sigma "call" = Some call /\
    black_scholes_merton norm_cdf S K T r sigma "put" = Some put /\
    call - put = S - K * exp ((- r) * T).
Proof.
  intros HF HS HK HT Hs. rewrite !bsm_as_analytic.
  rewrite !analytic_formula_valid by lra.
  rewrite is_call_call, is_call_put.
  eexists; eexists; split; [reflexivity | split; [reflexivity|]].
  rewrite !(cdf_sym _ HF). ring.
Qed.

Lemma bsm_put_call_parity_witness :
  exists call put,
    black_scholes_merton logistic 100 110 (30 / 365) 0.05 20 "call" = Some call /\
    black_scholes_merton logistic 100 110 (30 / 365) 0.05 20 "put" = Some put /\
    call - put = 100 - 110 * exp (Ropp 0.05 * (30 / 365)).
Proof.
  apply bsm_put_call_parity; [apply logistic_cdf_like | lra | lra | lra | lra].
Defined.

(** ** The jump-diffusion pricer without jumps *)

Lemma eps_value : 1e-10 = / 10000000000.
Proof. unfold Rdiv. rewrite Rmult_1_l. reflexivity. Qed.

Lemma bates_loop_cons F S K T r sigma l mu sj adj ot n ns acc :
  bates_loop F S K T r sigma l mu sj adj ot (n :: ns) acc =
  obind (bates_term F S K T r sigma l mu sj adj ot n acc)
        (fun acc => bates_loop F S K T r sigma l mu sj adj ot ns acc).
Proof. reflexivity. Qed.

Lemma bates_term_lambda0_skip F S K T r sigma mu sj adj ot n acc :
  (1 <= n)%nat -> bates_term F S K T r sigma 0 mu sj adj ot n acc = Some acc.
Proof.
  intros Hn. unfold bates_term. cbv zeta.
  replace ((0 * T) ^ n * exp ((- 0) * T) / INR (fact n)) with 0.
  - rewrite eps_value. destruct (Rlt_dec 0 (/ 10000000000)); [reflexivity | lra].
  - rewrite Rmult_0_l, pow_i by lia. unfold Rdiv. ring.
Qed.

Lemma bates_loop_lambda0_tail F S K T r sigma mu sj adj ot ns acc :
  Forall (fun n => (1 <= n)%nat) ns ->
  bates_loop F S K T r sigma 0 mu sj adj ot ns acc = Some acc.
Proof.
  intros H. revert acc. induction H as [|n ns Hn _ IH]; intros acc; [reflexivity|].
  rewrite bates_loop_cons, bates_term_lambda0_skip by assumption.
  obind_simpl. apply IH.
Qed.

Lemma analytic_formula_T0 F S K rate sigma ot :
  analytic_formula F S K 0 rate sigma ot = None.
Proof.
  unfold analytic_formula.
  destruct (py_div S K) as [SK|]; obind_simpl; [|reflexivity].
  destruct (py_log SK) as [l|]; obind_simpl; [|reflexivity].
  rewrite py_sqrt_ok by lra. obind_simpl.
  rewrite sqrt_0, !Rmult_0_r, py_div_zero. reflexivity.
Qed.

(** With [lambda_param = 0] only the [n = 0] term survives the
    [jump_prob < 1e-10] test, and it is the analytic formula. *)
Lemma bates_loop_lambda0 F S K T r sigma mu sj ot :
  0 <= sigma ->
  bates_loop F S K T r sigma 0 mu sj (r - 0 * (exp (mu + 0.5 * sj ^ 2) - 1)) ot
    (seq 0 10) 0 =
  analytic_formula F S K T r sigma ot.
Proof.
  intros Hs. replace (r - 0 * (exp (mu + 0.5 * sj ^ 2) - 1)) with r by ring.
  change (seq 0 10) with (0%nat :: seq 1 9). rewrite bates_loop_cons.
  assert (Htail : forall m,
    obind m (fun acc => bates_loop F S K T r sigma 0 mu sj r ot (seq 1 9) acc) = m).
  { intros [m|]; [|reflexivity]. obind_simpl.
    apply bates_loop_lambda0_tail. repeat constructor. }
  rewrite Htail. unfold bates_term. cbv zeta.
  replace ((0 * T) ^ 0 * exp ((- 0) * T) / INR (fact 0)) with 1
    by (simpl; rewrite Ropp_0, Rmult_0_l, exp_0; field).
  rewrite eps_value. destruct (Rlt_dec 1 (/ 10000000000)); [lra|].
  destruct (Req_dec T 0) as [HT0|HT0].
  - subst T. rewrite py_div_zero, analytic_formula_T0. reflexivity.
  - rewrite py_div_ok by assumption. obind_simpl.
    replace (INR 0 * sj ^ 2 / T) with 0 by (simpl; field; assumption).
    rewrite Rplus_0_r, py_sqrt_ok by (apply pow2_ge_0). obind_simpl.
    rewrite sqrt_pow2 by assumption.
    replace (S * exp (INR 0 * mu)) with S by (simpl; rewrite Rmult_0_l, exp_0; ring).
    unfold analytic_formula.
    destruct (py_div S K) as [SK|]; obind_simpl; [|reflexivity].
    destruct (py_log SK) as [l|]; obind_simpl; [|reflexivity].
    destruct (py_sqrt T) as [sT|]; obind_simpl; [|reflexivity].
    destruct (py_div _ (sigma * sT)) as [d1|]; obind_simpl; [|reflexivity].
    destruct (is_call ot); f_equal; ring.
Qed.

Lemma vol_to_decimal_nonneg sigma : 0 <= sigma -> 0 <= vol_to_decimal sigma.
Proof. intros H. unfold vol_to_decimal. destruct (Rlt_dec 1 sigma); lra. Qed.

Lemma vol_to_decimal_percent sigma : 1 < sigma -> vol_to_decimal sigma = sigma / 100.
Proof. intros H. unfold vol_to_decimal. destruct (Rlt_dec 1 sigma); [reflexivity | lra]. Qed.

Lemma vol_to_decimal_decimal sigma : sigma <= 1 -> vol_to_decimal sigma = sigma.
Proof. intros H. unfold vol_to_decimal. destruct (Rlt_dec 1 sigma); [lra | reflexivity]. Qed.

Lemma bates_lambda0_analytic F S K T r sigma mu sj ot :
  0 <= sigma ->
  bates_simplified F S K T r sigma 0 mu sj ot =
  analytic_formula F S K T r (vol_to_decimal sigma) ot.
Proof.
  intros Hs. unfold bates_simplified. cbv zeta.
  apply bates_loop_lambda0, vol_to_decimal_nonneg, Hs.
Qed.

(** C5 (as amended): with [lambda_param = 0] the mixture is the single
    analytic term at the jump pricer's own normalised volatility
    ([vol_to_decimal]); it equals [black_scholes_merton] when the
    volatility is in percentage form ([sigma > 1]). *)
Theorem bates_lambda_zero_is_analytic norm_cdf S K T r sigma mu_j sigma_j option_type :
  (0 <= sigma ->
   bates_simplified norm_cdf S K T r sigma 0 mu_j sigma_j option_type =
   analytic_formula norm_cdf S K T r (vol_to_decimal sigma) option_type) /\
  (1 < sigma ->
   bates_simplified norm_cdf S K T r sigma 0 mu_j sigma_j option_type =
   black_scholes_merton norm_cdf S K T r sigma option_type).
Proof.
  split; intros Hs.
  - apply bates_lambda0_analytic. assumption.
  - rewrite bates_lambda0_analytic by lra. rewrite bsm_as_analytic.
    rewrite vol_to_decimal_percent by assumption. reflexivity.
Qed.

Lemma bates_lambda_zero_is_analytic_witness :
  bates_simplified logistic 100 110 (30 / 365) 0.05 20 0 (-0.02) 0.05 "call" =
  analytic_formula logistic 100 110 (30 / 365) 0.05 (vol_to_decimal 20) "call" /\
  bates_simplified logistic 100 110 (30 / 365) 0.05 20 0 (-0.02) 0.05 "call" =
  black_scholes_merton logistic 100 110 (30 / 365) 0.05 20 "call".
Proof.
  split.
  - apply (proj1 (bates_lambda_zero_is_analytic logistic 100 110 (30 / 365) 0.05 20
                   (-0.02) 0.05 "call")). lra.
  - apply (proj2 (bates_lambda_zero_is_analytic logistic 100 110 (30 / 365) 0.05 20
                   (-0.02) 0.05 "call")). lra.
Defined.

(** For every [cdf_like] distribution function the decimal volatility
    [1/2] separates the two pricers. *)
Lemma bates_lambda0_differs_from_bsm F mu sj :
  cdf_like F ->
  bates_simplified F 1 1 1 0 (1 / 2) 0 mu sj "call" <>
  black_scholes_merton F 1 1 1 0 (1 / 2) "call".
Proof.
  intros HF. rewrite bates_lambda0_analytic by lra.
  rewrite vol_to_decimal_decimal by lra. rewrite bsm_as_analytic.
  intros Heq. symmetry in Heq. revert Heq.
  apply analytic_atm_call_strict; [assumption | lra | lra].
Qed.

(** C5 counterexample: [S = K = T = 1], [r = 0], [sigma = 1/2] (decimal
    form), [lambda_param = 0]. *)
Lemma bates_lambda_zero_counterexample :
  ~ (forall norm_cdf, cdf_like norm_cdf ->
     forall S K T r sigma mu_j sigma_j option_type,
       bates_simplified norm_cdf S K T r sigma 0 mu_j sigma_j option_type =
       black_scholes_merton norm_cdf S K T r sigma option_type).
Proof.
  intros H. apply (bates_lambda0_differs_from_bsm logistic (-0.02) 0.05 logistic_cdf_like).
  apply H, logistic_cdf_like.
Qed.

(** ** The lattice pricer refines the CRR valuation *)

Lemma length_list_set l j x : length (list_set l j x) = length l.
Proof.
  revert j. induction l as [|h t IH]; intros [|j]; simpl; auto.
Qed.

Lemma nth_list_set_eq l j x : (j < length l)%nat -> nth j (list_set l j x) 0 = x.
Proof.
  revert j. induction l as [|h t IH]; intros [|j] Hj; simpl in *; try lia; auto.
  apply IH. lia.
Qed.

Lemma nth_list_set_neq l j j' x : j <> j' -> nth j' (list_set l j x) 0 = nth j' l 0.
Proof.
  revert j j'. induction l as [|h t IH]; intros [|j] [|j'] H; simpl; auto; try lia.
  all: apply IH; lia.
Qed.

Lemma nth_map_seq (f : nat -> R) len j :
  (j < len)%nat -> nth j (map f (seq 0 len)) 0 = f j.
Proof.
  intros Hj.
  rewrite nth_indep with (d' := f 0%nat) by (rewrite length_map, length_seq; lia).
  rewrite map_nth, seq_nth by lia. reflexivity.
Qed.

Section Lattice.

Variables (S K u d p df : R) (option_type : string) (american : bool).

(** The value the in-place update writes at node [j] of step [i] from the
    two successor values [x] (up) and [y] (down). *)
Definition node_value (i j : nat) (x y : R) : R :=
  let cont := df * (p * x + (1 - p) * y) in
  if american
  then Rmax cont (intrinsic K option_type (S * u ^ (i - j)%nat * d ^ j))
  else cont.

Lemma node_update_eq i vals j :
  node_update S K u d p df option_type american i vals j =
  list_set vals j (node_value i j (nth j vals 0) (nth (j + 1) vals 0)).
Proof. reflexivity. Qed.

(** The in-place sweep [for j in range(m)] has overwritten nodes [0..m-1]
    with their new values, each computed from the old nodes [j] and
    [j + 1], and left the others alone. *)
Lemma inner_sweep i m vals :
  (m < length vals)%nat ->
  let st := fold_left (node_update S K u d p df option_type american i)
              (seq 0 m) vals in
  length st = length vals /\
  (forall j, (j < m)%nat ->
     nth j st 0 = node_value i j (nth j vals 0) (nth (j + 1) vals 0)) /\
  (forall j, (m <= j)%nat -> nth j st 0 = nth j vals 0).
Proof.
  induction m as [|m IH]; intros Hm; cbv zeta.
  - simpl. split; [reflexivity | split; [intros; lia | reflexivity]].
  - rewrite seq_S, fold_left_app, Nat.add_0_l. cbn [fold_left].
    destruct IH as (Hlen & Hnew & Hold); [lia|].
    set (st := fold_left _ (seq 0 m) vals) in *.
    rewrite node_update_eq.
    rewrite (Hold m), (Hold (m + 1)%nat) by lia.
    split; [|split].
    + rewrite length_list_set. assumption.
    + intros j Hj. destruct (Nat.eq_dec j m) as [->|Hjm].
      * apply nth_list_set_eq. lia.
      * rewrite nth_list_set_neq by lia. apply Hnew. lia.
    + intros j Hj. rewrite nth_list_set_neq by lia. apply Hold. lia.
Qed.

Lemma crr_value_succ steps k j :
  crr_value S K u d p df option_type american steps (Datatypes.S k) j =
  node_value (steps - Datatypes.S k) j
    (crr_value S K u d p df option_type american steps k j)
    (crr_value S K u d p df option_type american steps k (j + 1)).
Proof. reflexivity. Qed.

(** Before the outer iterations [i = m - 1, ..., 0], nodes [0..m] hold the
    values of step [m]; afterwards node [0] holds the root value. *)
Lemma outer_sweep steps m vals :
  (m <= steps)%nat -> length vals = (steps + 1)%nat ->
  (forall j, (j <= m)%nat ->
     nth j vals 0 = crr_value S K u d p df option_type american steps (steps - m) j) ->
  nth 0 (outer_loop (inner_loop S K u d p df option_type american) m vals) 0 =
  crr_value S K u d p df option_type american steps steps 0.
Proof.
  revert vals. induction m as [|m IH]; intros vals Hm Hlen Hvals.
  - simpl. rewrite Hvals by lia. rewrite Nat.sub_0_r. reflexivity.
  - simpl. unfold inner_loop.
    destruct (inner_sweep m (m + 1) vals) as (Hlen' & Hnew & _); [lia|].
    apply IH; [lia | rewrite Hlen'; assumption |].
    intros j Hj. rewrite Hnew by lia.
    rewrite !Hvals by lia.
    replace (steps - m)%nat with (Datatypes.S (steps - Datatypes.S m)) by lia.
    rewrite crr_value_succ.
    replace (steps - Datatypes.S (steps - Datatypes.S m))%nat with m by lia.
    reflexivity.
Qed.

End Lattice.

Lemma vol_to_decimal_neq0 sigma : sigma <> 0 -> vol_to_decimal sigma <> 0.
Proof. intros H. unfold vol_to_decimal. destruct (Rlt_dec 1 sigma); lra. Qed.

(** The CRR parameters never raise on a valid input: [steps >= 1],
    [T > 0] and a non-zero volatility. *)
Lemma crr_params_ok T steps s :
  (1 <= steps)%nat -> 0 < T -> s <> 0 ->
  let dt := T / INR steps in
  0 < dt /\ exp (s * sqrt dt) - 1 / exp (s * sqrt dt) <> 0.
Proof.
  intros Hn HT Hs dt.
  assert (Hdt : 0 < dt) by (apply Rdiv_lt_0_compat; [lra | apply lt_0_INR; lia]).
  split; [assumption|].
  assert (Hsq : 0 < sqrt dt) by (apply sqrt_lt_R0; assumption).
  intros H. pose proof (exp_pos (s * sqrt dt)) as Hu.
  assert (Hsq1 : exp (s * sqrt dt) * exp (s * sqrt dt) = 1).
  { apply Rminus_diag_uniq in H. rewrite H at 1. field. lra. }
  assert (Hone : exp (s * sqrt dt) = exp 0).
  { rewrite exp_0. nra. }
  apply exp_inv in Hone. apply Rmult_integral in Hone. lra.
Qed.

Lemma binomial_refines_crr S K T r sigma option_type steps american q :
  (1 <= steps)%nat -> 0 < T -> sigma <> 0 ->
  binomial_option_price S K T r sigma option_type steps american q =
  Some (crr_reference S K T r (vol_to_decimal sigma) option_type steps american q).
Proof.
  intros Hn HT Hs. unfold binomial_option_price, crr_reference.
  pose proof (vol_to_decimal_neq0 sigma Hs) as Hs'.
  set (s := vol_to_decimal sigma) in *.
  destruct (crr_params_ok T steps s Hn HT Hs') as [Hdt Hud].
  rewrite py_div_ok by (apply not_0_INR; lia). obind_simpl.
  rewrite py_sqrt_ok by lra. obind_simpl.
  rewrite py_div_ok by (apply Rgt_not_eq, exp_pos). obind_simpl.
  rewrite py_div_ok by assumption. obind_simpl.
  f_equal. apply outer_sweep; [lia | |].
  - destruct (is_call option_type); rewrite length_map, length_map, length_seq; reflexivity.
  - intros j Hj. rewrite Nat.sub_diag. simpl crr_value. unfold intrinsic.
    destruct (is_call option_type);
      rewrite map_map, nth_map_seq by lia; reflexivity.
Qed.

(** C6: on a valid input ([steps >= 1], [T > 0], [sigma > 0]) the in-place
    lattice of [binomial_option_price] returns the root value of the CRR
    backward induction of the spec, with [u = e^(sigma' sqrt dt)],
    [d = 1/u], [p = (e^((r-q) dt) - d) / (u - d)] and
    [discount = e^(-r dt)], where [sigma'] is the pricer's decimal
    volatility [vol_to_decimal sigma] ([= sigma] for [sigma <= 1]). *)
Theorem binomial_equals_crr_reference S K T r sigma option_type steps american
    dividend_yield :
  (1 <= steps)%nat -> 0 < T -> 0 < sigma ->
  binomial_option_price S K T r sigma option_type steps american dividend_yield =
  Some (crr_reference S K T r (vol_to_decimal sigma) option_type steps american
          dividend_yield).
Proof. intros Hn HT Hs. apply binomial_refines_crr; [assumption | assumption | lra]. Qed.

Lemma binomial_equals_crr_reference_witness :
  binomial_option_price 100 100 1 0.05 0.2 "put" 3 true 0 =
  Some (crr_reference 100 100 1 0.05 (vol_to_decimal 0.2) "put" 3 true 0).
Proof. apply binomial_equals_crr_reference; [lia | lra | lra]. Defined.

(** ** Volatility normalisation of the lattice pricer *)

(** C3 (as amended): the lattice pricer applies the magnitude heuristic
    itself: a decimal volatility ([sigma <= 1]) is used as is in
    [u = e^(sigma sqrt dt)], a percentage one ([sigma > 1]) is divided by
    100 first. *)
Theorem binomial_normalizes_sigma S K T r sigma option_type steps american
    dividend_yield :
  (1 <= steps)%nat -> 0 < T -> 0 < sigma ->
  (sigma <= 1 ->
   binomial_option_price S K T r sigma option_type steps american dividend_yield =
   Some (crr_reference S K T r sigma option_type steps american dividend_yield)) /\
  (1 < sigma ->
   binomial_option_price S K T r sigma option_type steps american dividend_yield =
   Some (crr_reference S K T r (sigma / 100) option_type steps american
           dividend_yield)).
Proof.
  intros Hn HT Hs. split; intros Hs1.
  - rewrite binomial_refines_crr by first [lia | lra]. rewrite vol_to_decimal_decimal by lra.
    reflexivity.
  - rewrite binomial_refines_crr by first [lia | lra]. rewrite vol_to_decimal_percent by lra.
    reflexivity.
Qed.

Lemma binomial_normalizes_sigma_witness :
  binomial_option_price 100 110 (30 / 365) 0.05 0.2 "call" 100 false 0 =
  Some (crr_reference 100 110 (30 / 365) 0.05 0.2 "call" 100 false 0) /\
  binomial_option_price 100 110 (30 / 365) 0.05 20 "call" 100 false 0 =
  Some (crr_reference 100 110 (30 / 365) 0.05 (20 / 100) "call" 100 false 0).
Proof.
  split.
  - apply (proj1 (binomial_normalizes_sigma 100 110 (30 / 365) 0.05 0.2 "call" 100
                    false 0 ltac:(lia) ltac:(lra) ltac:(lra))). lra.
  - apply (proj2 (binomial_normalizes_sigma 100 110 (30 / 365) 0.05 20 "call" 100
                    false 0 ltac:(lia) ltac:(lra) ltac:(lra))). lra.
Defined.

(** One step at the money, [S = K = T = 1], [r = q = 0]: the call is
    worth [(e^s - 1) / (e^s + 1)]. *)
Lemma crr_atm_one_step s :
  0 < s -> crr_reference 1 1 1 0 s "call" 1 false 0 = (exp s - 1) / (exp s + 1).
Proof.
  intros Hs. unfold crr_reference. cbv zeta.
  replace (1 / INR 1) with 1 by (simpl; field).
  rewrite sqrt_1, Rmult_1_r.
  replace ((0 - 0) * 1) with 0 by ring. replace ((- 0) * 1) with 0 by ring.
  rewrite exp_0.
  assert (Hu : 1 < exp s) by (rewrite <- exp_0; apply exp_increasing; lra).
  simpl crr_value. unfold intrinsic. rewrite is_call_call.
  rewrite (Rmax_right 0 (1 * (exp s * 1) * 1 - 1)) by lra.
  assert (Hd : 1 / exp s < 1).
  { unfold Rdiv. rewrite Rmult_1_l. rewrite <- Rinv_1. apply Rinv_lt_contravar; lra. }
  rewrite (Rmax_left 0 (1 * 1 * (1 / exp s * 1) - 1)) by lra.
  field. split; [lra | split; [lra | nra]].
Qed.

Lemma atm_ratio_strict x y : 0 < x -> x < y -> (x - 1) / (x + 1) < (y - 1) / (y + 1).
Proof.
  intros Hx Hxy.
  assert (E : (y - 1) / (y + 1) - (x - 1) / (x + 1) = 2 * (y - x) / ((x + 1) * (y + 1)))
    by (field; lra).
  assert (0 < 2 * (y - x) / ((x + 1) * (y + 1)))
    by (apply Rdiv_lt_0_compat; nra).
  lra.
Qed.

(** C3 counterexample: [sigma = 20] is not used as is. *)
Lemma binomial_percent_sigma_counterexample :
  ~ (forall S K T r sigma option_type steps american dividend_yield,
       (1 <= steps)%nat -> 0 < T -> 0 < sigma ->
       binomial_option_price S K T r sigma option_type steps american dividend_yield =
       Some (crr_reference S K T r sigma option_type steps american dividend_yield)).
Proof.
  intros H.
  specialize (H 1 1 1 0 20 "call"%string 1%nat false 0 ltac:(lia) ltac:(lra) ltac:(lra)).
  rewrite binomial_refines_crr in H by first [lia | lra].
  rewrite vol_to_decimal_percent in H by lra.
  injection H as H. rewrite !crr_atm_one_step in H by lra.
  assert (exp (20 / 100) < exp 20) by (apply exp_increasing; lra).
  pose proof (atm_ratio_strict (exp (20 / 100)) (exp 20) (exp_pos _) H0). lra.
Qed.

(** ** Early exercise in the lattice *)

Lemma exp_le x y : x <= y -> exp x <= exp y.
Proof.
  intros H. destruct (Rle_lt_or_eq_dec x y H) as [Hlt | ->].
  - left. apply exp_increasing. assumption.
  - right. reflexivity.
Qed.

(** With a non-negative discount and [0 <= p <= 1] the early-exercise
    max at each node never lowers a value. *)
Lemma crr_value_american_ge S K u d p df option_type steps :
  0 <= df -> 0 <= p <= 1 ->
  forall k j,
    crr_value S K u d p df option_type false steps k j <=
    crr_value S K u d p df option_type true steps k j.
Proof.
  intros Hdf Hp k. induction k as [|k IH]; intros j.
  - right. reflexivity.
  - rewrite !crr_value_succ. unfold node_value. cbv iota.
    eapply Rle_trans; [|apply Rmax_l].
    apply Rmult_le_compat_l; [assumption|].
    apply Rplus_le_compat; apply Rmult_le_compat_l; try lra; apply IH.
Qed.

(** The no-arbitrage condition [d <= e^((r-q) dt) <= u] puts the CRR
    probability in [0, 1]. *)
Lemma crr_probability_bounds x y :
  0 < x -> Rabs y <= x ->
  0 <= (exp y - 1 / exp x) / (exp x - 1 / exp x) <= 1.
Proof.
  intros Hx Hy.
  assert (Hd : 1 / exp x = exp (- x)) by (rewrite exp_Ropp; field; apply Rgt_not_eq, exp_pos).
  rewrite Hd.
  assert (Hud : exp (- x) < exp x) by (apply exp_increasing; lra).
  assert (Hy' : - x <= y <= x) by (unfold Rabs in Hy; destruct (Rcase_abs y); lra).
  assert (Hlo : exp (- x) <= exp y) by (apply exp_le; lra).
  assert (Hhi : exp y <= exp x) by (apply exp_le; lra).
  split.
  - unfold Rdiv. apply Rmult_le_pos; [lra | left; apply Rinv_0_lt_compat; lra].
  - apply (Rmult_le_reg_r (exp x - exp (- x))); [lra|].
    unfold Rdiv. rewrite Rmult_assoc, Rinv_l by lra. lra.
Qed.

(** C8 (as amended): when the CRR probability lies in [0, 1], i.e.
    [|r - q| dt <= sigma' sqrt dt] for the decimal volatility [sigma'] and
    [dt = T / steps], the American price is at least the European one (for
    a put, and in fact for either kind). *)
Theorem binomial_american_ge_european S K T r sigma option_type steps
    dividend_yield :
  (1 <= steps)%nat -> 0 < T -> 0 < sigma ->
  Rabs ((r - dividend_yield) * (T / INR steps)) <=
    vol_to_decimal sigma * sqrt (T / INR steps) ->
  exists american_price european_price,
    binomial_option_price S K T r sigma option_type steps true dividend_yield =
      Some american_price /\
    binomial_option_price S K T r sigma option_type steps false dividend_yield =
      Some european_price /\
    european_price <= american_price.
Proof.
  intros Hn HT Hs Harb.
  rewrite !binomial_refines_crr by first [lia | lra].
  eexists; eexists; split; [reflexivity | split; [reflexivity|]].
  unfold crr_reference. cbv zeta.
  apply crr_value_american_ge.
  - left. apply exp_pos.
  - apply crr_probability_bounds; [|assumption].
    apply Rmult_lt_0_compat.
    + unfold vol_to_decimal. destruct (Rlt_dec 1 sigma); lra.
    + apply sqrt_lt_R0, Rdiv_lt_0_compat; [lra | apply lt_0_INR; lia].
Qed.

Lemma binomial_american_ge_european_witness :
  exists american_price european_price,
    binomial_option_price 100 100 1 0 0.2 "put" 2 true 0 = Some american_price /\
    binomial_option_price 100 100 1 0 0.2 "put" 2 false 0 = Some european_price /\
    european_price <= american_price.
Proof.
  apply binomial_american_ge_european; [lia | lra | lra |].
  replace ((0 - 0) * (1 / INR 2)) with 0 by ring. rewrite Rabs_R0.
  apply Rmult_le_pos; [rewrite vol_to_decimal_decimal; lra | apply sqrt_pos].
Defined.

Lemma intrinsic_put K x : intrinsic K "put" x = Rmax 0 (K - x).
Proof. unfold intrinsic. rewrite is_call_put. reflexivity. Qed.

(** Two steps, [S = K = 100], with [p > 1]: early exercise at the down
    node turns a negative continuation value positive, which the
    negative weight [1 - p] then turns against the root. *)
Lemma crr_two_step_put u p df :
  1 < u -> 1 < p -> 0 < df ->
  crr_value 100 100 u (1 / u) p df "put" true 2 2 0 = 0 /\
  0 < crr_value 100 100 u (1 / u) p df "put" false 2 2 0.
Proof.
  intros Hu Hp Hdf.
  assert (Hd : 0 < 1 / u < 1).
  { split; [apply Rdiv_lt_0_compat; lra|].
    unfold Rdiv. rewrite Rmult_1_l, <- Rinv_1. apply Rinv_lt_contravar; lra. }
  assert (L0 : forall am, crr_value 100 100 u (1 / u) p df "put" am 2 0 0 = 0).
  { intros am. simpl crr_value. rewrite intrinsic_put. apply Rmax_left. nra. }
  assert (L1 : forall am, crr_value 100 100 u (1 / u) p df "put" am 2 0 1 = 0).
  { intros am. simpl crr_value. rewrite intrinsic_put.
    replace (100 - 100 * (u * 1) * (1 / u * 1)) with 0 by (field; lra).
    apply Rmax_left. lra. }
  set (X := 100 - 100 * (1 / u) ^ 2).
  assert (HX : 0 < X) by (unfold X; nra).
  assert (L2 : forall am, crr_value 100 100 u (1 / u) p df "put" am 2 0 2 = X).
  { intros am. simpl crr_value. rewrite intrinsic_put. unfold X.
    rewrite Rmax_right by (simpl; nra). simpl. ring. }
  split.
  - rewrite crr_value_succ. unfold node_value.
    rewrite !crr_value_succ. unfold node_value.
    simpl Nat.add. simpl Nat.sub. rewrite L0, L1, L2, !intrinsic_put.
    rewrite (Rmax_left 0 (100 - 100 * u ^ 1 * (1 / u) ^ 0)) by (simpl; nra).
    replace (df * (p * 0 + (1 - p) * 0)) with 0 by ring.
    rewrite (Rmax_left 0 0) by lra.
    replace (Rmax 0 (100 - 100 * u ^ 0 * (1 / u) ^ 1)) with (100 - 100 * (1 / u))
      by (rewrite Rmax_right by (simpl; nra); simpl; ring).
    assert (HY : 0 < 100 - 100 * (1 / u)) by nra.
    assert (HdX : 0 < df * ((p - 1) * X))
      by (apply Rmult_lt_0_compat; [lra | apply Rmult_lt_0_compat; lra]).
    assert (HdY : 0 < df * ((p - 1) * (100 - 100 * (1 / u))))
      by (apply Rmult_lt_0_compat; [lra | apply Rmult_lt_0_compat; lra]).
    rewrite (Rmax_right (df * (p * 0 + (1 - p) * X))).
    2: { replace (df * (p * 0 + (1 - p) * X)) with (- (df * ((p - 1) * X))) by ring. lra. }
    replace (100 - 100 * u ^ 0 * (1 / u) ^ 0) with 0 by (simpl; ring).
    rewrite (Rmax_left 0 0) by lra.
    apply Rmax_right.
    replace (df * (p * 0 + (1 - p) * (100 - 100 * (1 / u))))
      with (- (df * ((p - 1) * (100 - 100 * (1 / u))))) by ring.
    lra.
  - rewrite !crr_value_succ. unfold node_value.
    simpl Nat.add. rewrite L0, L1, L2.
    replace (df * (p * (df * (p * 0 + (1 - p) * 0)) + (1 - p) * (df * (p * 0 + (1 - p) * X))))
      with (df * df * ((1 - p) * (1 - p)) * X) by ring.
    apply Rmult_lt_0_compat; [|assumption].
    apply Rmult_lt_0_compat; nra.
Qed.

(** C8 counterexample: [S = K = 100], [T = 2], [r = 10%], [sigma = 5%],
    two steps, no dividend: [e^(r dt) > u], so [p > 1]; the American put
    is worth 0 and the European one is positive. *)
Lemma binomial_american_put_counterexample :
  ~ (forall S K T r sigma steps dividend_yield,
       (1 <= steps)%nat -> 0 < S -> 0 < K -> 0 < T -> 0 < sigma ->
       0 <= dividend_yield ->
       forall american_price european_price,
         binomial_option_price S K T r sigma "put" steps true dividend_yield =
           Some american_price ->
         binomial_option_price S K T r sigma "put" steps false dividend_yield =
           Some european_price ->
         european_price <= american_price).
Proof.
  intros H.
  set (u := exp (1 / 20 * sqrt (2 / INR 2))).
  set (p := (exp ((1 / 10 - 0) * (2 / INR 2)) - 1 / u) / (u - 1 / u)).
  set (df := exp (- (1 / 10) * (2 / INR 2))).
  assert (Hdt : 2 / INR 2 = 1) by (simpl; field).
  assert (Hu : 1 < u).
  { unfold u. rewrite Hdt, sqrt_1, Rmult_1_r.
    pose proof (exp_increasing 0 (1 / 20) ltac:(lra)) as E. rewrite exp_0 in E. exact E. }
  assert (Hd : 1 / u < u).
  { apply (Rmult_lt_reg_r u); [lra|]. unfold Rdiv. rewrite Rmult_assoc, Rinv_l by lra. nra. }
  assert (Hp : 1 < p).
  { unfold p. apply (Rmult_lt_reg_r (u - 1 / u)); [lra|].
    unfold Rdiv at 2. rewrite Rmult_assoc, Rinv_l, Rmult_1_l, Rmult_1_r by lra.
    assert (exp (1 / 20 * sqrt (2 / INR 2)) < exp ((1 / 10 - 0) * (2 / INR 2))).
    { apply exp_increasing. rewrite Hdt, sqrt_1. lra. }
    fold u in H0. lra. }
  assert (Hdf : 0 < df) by apply exp_pos.
  destruct (crr_two_step_put u p df Hu Hp Hdf) as [Ham Heu].
  specialize (H 100 100 2 (1 / 10) (1 / 20) 2%nat 0).
  specialize (H ltac:(lia) ltac:(lra) ltac:(lra) ltac:(lra) ltac:(lra) ltac:(lra)).
  rewrite !binomial_refines_crr in H by first [lia | lra].
  specialize (H _ _ eq_refl eq_refl).
  unfold crr_reference in H. cbv zeta in H.
  rewrite vol_to_decimal_decimal in H by lra.
  fold u p df in H. lra.
Qed.

(** ** The discount inside each jump term *)

(** A kept term of the code and the same term of the spec's wording share
    [d1] and [d2]; for a call they differ only in the strike's discount,
    [e^(-r T)] in the code against [e^(-drift_adj T)], so when
    [r < drift_adj] the code's term is the smaller one. *)
Lemma bates_term_below_spec_call F S K T r sigma l mu sj adj ot n acc acc' :
  cdf_like F -> is_call ot = true ->
  0 < S -> 0 < K -> 0 < T -> sigma <> 0 -> r < adj ->
  ~ ((l * T) ^ n * exp ((- l) * T) / INR (fact n) < 1e-10) ->
  exists x y,
    bates_term F S K T r sigma l mu sj adj ot n acc = Some x /\
    bates_spec_term F S K T sigma l mu sj adj ot n acc' = Some y /\
    x - acc < y - acc'.
Proof.
  intros HF Hcall HS HK HT Hs Hr Hkeep.
  unfold bates_term, bates_spec_term. cbv zeta.
  set (P := (l * T) ^ n * exp ((- l) * T) / INR (fact n)) in *.
  destruct (Rlt_dec P 1e-10) as [Hlt | _]; [contradiction|].
  assert (HP : 0 < P).
  { apply Rnot_lt_le in Hkeep. rewrite eps_value in Hkeep.
    pose proof (Rinv_0_lt_compat 10000000000 ltac:(lra)). lra. }
  rewrite py_div_ok by lra. obind_simpl.
  set (v := INR n * sj ^ 2 / T).
  assert (Hv : 0 <= v).
  { unfold v, Rdiv. apply Rmult_le_pos; [apply Rmult_le_pos; [apply pos_INR | apply pow2_ge_0]|].
    left. apply Rinv_0_lt_compat. lra. }
  assert (Hs2 : 0 < sigma ^ 2).
  { pose proof (Rsqr_pos_lt sigma Hs). unfold Rsqr in *. simpl. lra. }
  rewrite py_sqrt_ok by lra. obind_simpl.
  set (sn := sqrt (sigma ^ 2 + v)).
  assert (Hsn : 0 < sn) by (apply sqrt_lt_R0; lra).
  set (Sn := S * exp (INR n * mu)).
  assert (HSn : 0 < Sn) by (apply Rmult_lt_0_compat; [lra | apply exp_pos]).
  rewrite analytic_formula_valid by lra.
  rewrite py_div_ok by lra. obind_simpl.
  rewrite py_log_ok by (apply Rdiv_lt_0_compat; lra). obind_simpl.
  rewrite py_sqrt_ok by lra. obind_simpl.
  assert (HsT : 0 < sqrt T) by (apply sqrt_lt_R0; lra).
  rewrite py_div_ok by (apply Rmult_integral_contrapositive; split; lra).
  obind_simpl. rewrite Hcall.
  do 2 eexists. split; [reflexivity | split; [reflexivity|]].
  unfold bs_d2, bs_d1.
  set (d1 := (ln (Sn / K) + (adj + 0.5 * sn ^ 2) * T) / (sn * sqrt T)).
  set (d2 := d1 - sn * sqrt T).
  assert (Hd2 : 0 < F d2) by (apply cdf_pos; assumption).
  assert (Hexp : exp ((- adj) * T) < exp ((- r) * T)) by (apply exp_increasing; nra).
  assert (Hgap : 0 < P * (K * F d2 * (exp ((- r) * T) - exp ((- adj) * T)))).
  { apply Rmult_lt_0_compat; [lra|].
    apply Rmult_lt_0_compat; [apply Rmult_lt_0_compat; lra | lra]. }
  lra.
Qed.

(** Kept terms carried through the loop: the code's running sum stays below
    the spec's. *)
Lemma bates_loop_below_spec_call F S K T r sigma l mu sj adj ot ns acc acc' :
  cdf_like F -> is_call ot = true ->
  0 < S -> 0 < K -> 0 < T -> sigma <> 0 -> r < adj ->
  (forall n, In n ns -> ~ ((l * T) ^ n * exp ((- l) * T) / INR (fact n) < 1e-10)) ->
  acc <= acc' -> (ns <> [] \/ acc < acc') ->
  exists x y,
    bates_loop F S K T r sigma l mu sj adj ot ns acc = Some x /\
    bates_spec_loop F S K T sigma l mu sj adj ot ns acc' = Some y /\
    x < y.
Proof.
  intros HF Hcall HS HK HT Hs Hr Hkeep.
  revert acc acc'. induction ns as [|n ns IH]; intros acc acc' Hle Hne.
  - destruct Hne as [Hne | Hlt]; [contradiction|].
    exists acc, acc'. repeat split; assumption.
  - destruct (bates_term_below_spec_call F S K T r sigma l mu sj adj ot n acc acc')
      as (x1 & y1 & Hx1 & Hy1 & Hd); try assumption.
    { apply Hkeep. left. reflexivity. }
    simpl. rewrite Hx1, Hy1. obind_simpl.
    apply IH; [intros m Hm; apply Hkeep; right; exact Hm | lra | right; lra].
Qed.

(** With [lambda T = 2] all ten jump counts are kept:
    [2^n e^-2 / n! >= e^-2 / 9! > 1e-10] for [n < 10]. *)
Lemma bates_all_terms_kept n :
  In n (seq 0 10) ->
  ~ ((2 * 1) ^ n * exp ((- 2) * 1) / INR (fact n) < 1e-10).
Proof.
  intros Hn. apply in_seq in Hn.
  assert (Hf : INR (fact n) <= 362880).
  { apply Rle_trans with (INR (fact 9)); [apply le_INR, fact_le; lia|].
    rewrite INR_IZR_INZ.
    replace (Z.of_nat (fact 9)) with 362880%Z by (vm_compute; reflexivity).
    right. reflexivity. }
  assert (Hf0 : 0 < INR (fact n)) by (apply lt_0_INR, lt_O_fact).
  assert (Hpow : 1 <= (2 * 1) ^ n) by (apply pow_R1_Rle; lra).
  assert (He : / 9 <= exp ((- 2) * 1)).
  { replace ((- 2) * 1) with (- (1 + 1)) by ring.
    rewrite exp_Ropp, exp_plus.
    pose proof exp_le_3. pose proof (exp_pos 1).
    apply Rinv_le_contravar; [nra | nra]. }
  rewrite eps_value. intros Hlt.
  assert (Hlow : / 9 / 362880 <= (2 * 1) ^ n * exp ((- 2) * 1) / INR (fact n)).
  { unfold Rdiv. apply Rmult_le_compat.
    - left. apply Rinv_0_lt_compat. lra.
    - left. apply Rinv_0_lt_compat. lra.
    - rewrite <- (Rmult_1_l (/ 9)). apply Rmult_le_compat; lra.
    - apply Rinv_le_contravar; lra. }
  lra.
Qed.

(** drift_adj exceeds r at the failing input: the mean jump factor
    [e^(mu_j + sigma_j^2 / 2)] is below 1 for [mu_j = -2%], [sigma_j = 5%]. *)
Lemma bates_drift_adj_above_r :
  1 / 20 < 1 / 20 - 2 * (exp (- (1 / 50) + 0.5 * (1 / 20) ^ 2) - 1).
Proof.
  assert (exp (- (1 / 50) + 0.5 * (1 / 20) ^ 2) < 1).
  { pose proof (exp_increasing (- (1 / 50) + 0.5 * (1 / 20) ^ 2) 0) as E.
    rewrite exp_0 in E. apply E. rewrite R_half. simpl. lra. }
  lra.
Qed.

(** C1 counterexample: at [S = K = 100], [T = 1], [r = 5%], [sigma = 20]
    (percentage points), [lambda = 2], [mu_j = -2%], [sigma_j = 5%], for a
    call and any [cdf_like] [norm.cdf], the code's mixture (strike
    discounted with [e^(-r T)]) is strictly below the mixture whose terms
    all discount with [e^(-drift_adj T)]. *)
Lemma bates_raw_rate_discount_counterexample :
  ~ (forall F, cdf_like F ->
       bates_simplified F 100 100 1 (1 / 20) 20 2 (- (1 / 50)) (1 / 20) "call" =
       bates_spec_drift_discount F 100 100 1 (1 / 20) 20 2 (- (1 / 50)) (1 / 20) "call").
Proof.
  intros H. specialize (H logistic logistic_cdf_like).
  unfold bates_simplified, bates_spec_drift_discount in H. cbv zeta in H.
  destruct (bates_loop_below_spec_call logistic 100 100 1 (1 / 20)
              (vol_to_decimal 20) 2 (- (1 / 50)) (1 / 20)
              (1 / 20 - 2 * (exp (- (1 / 50) + 0.5 * (1 / 20) ^ 2) - 1))
              "call" (seq 0 10) 0 0)
    as (x & y & Hx & Hy & Hlt).
  - apply logistic_cdf_like.
  - apply is_call_call.
  - lra.
  - lra.
  - lra.
  - apply vol_to_decimal_neq0. lra.
  - apply bates_drift_adj_above_r.
  - apply bates_all_terms_kept.
  - lra.
  - left. discriminate.
  - rewrite Hx, Hy in H. injection H as E. lra.
Qed.

(** * Further properties of the pricers *)

(** ** [black_scholes_merton]: errors, bounds, units *)

(** The exceptions of [black_scholes_merton], all from its arithmetic:
    [S / K] with [K == 0], [math.log] of a non-positive [S / K],
    [math.sqrt] of a negative [T], and the division by
    [sigma * math.sqrt(T)] when [sigma == 0] or [T == 0]. *)
Theorem bsm_raises_iff F S K T r sigma option_type :
  black_scholes_merton F S K T r sigma option_type = None <->
  (K = 0 \/ S / K <= 0 \/ T <= 0 \/ sigma = 0).
Proof.
  unfold black_scholes_merton, py_div, py_log, py_sqrt. obind_simpl.
  destruct (Req_EM_T K 0) as [HK | HK]; [split; auto|].
  destruct (Rle_dec (S / K) 0) as [HSK | HSK]; [split; auto|].
  destruct (Rlt_dec T 0) as [HT | HT]; [split; intros; [right; right; left; lra | reflexivity]|].
  destruct (Req_EM_T (sigma / 100 * sqrt T) 0) as [H0 | H0].
  - split; [intros _|reflexivity].
    apply Rmult_integral in H0. destruct H0 as [H0 | H0].
    + right; right; right. lra.
    + right; right; left. apply Rnot_lt_le in HT.
      destruct (Rle_lt_or_eq_dec 0 T HT) as [HT' | HT']; [|lra].
      pose proof (sqrt_lt_R0 T HT'). lra.
  - split; [destruct (is_call option_type); discriminate|].
    intros [H | [H | [H | H]]]; try lra.
    exfalso. apply H0. assert (T = 0) by lra. subst. rewrite sqrt_0. ring.
    exfalso. apply H0. subst. unfold Rdiv. ring.
Qed.

Lemma cdf_lt_1 F x : cdf_like F -> F x < 1.
Proof.
  intros HF. pose proof (cdf_pos F HF (- x)) as H.
  rewrite (cdf_sym F HF x) in H. lra.
Qed.

(** On a valid input the call is worth strictly less than the spot and
    the put strictly less than the discounted strike. *)
Theorem bsm_price_upper_bounds F S K T r sigma :
  cdf_like F -> 0 < S -> 0 < K -> 0 < T -> sigma <> 0 ->
  exists call put,
    black_scholes_merton F S K T r sigma "call" = Some call /\
    black_scholes_merton F S K T r sigma "put" = Some put /\
    call < S /\ put < K * exp ((- r) * T).
Proof.
  intros HF HS HK HT Hs.
  rewrite !bsm_as_analytic.
  rewrite !analytic_formula_valid by (try lra; intros H; apply Hs; lra).
  rewrite is_call_call, is_call_put.
  do 2 eexists. split; [reflexivity | split; [reflexivity|]].
  set (d1 := bs_d1 S K T r (sigma / 100)). set (d2 := bs_d2 S K T r (sigma / 100)).
  pose proof (exp_pos ((- r) * T)) as He.
  assert (HKe : 0 < K * exp ((- r) * T)) by (apply Rmult_lt_0_compat; lra).
  pose proof (cdf_pos F HF d1). pose proof (cdf_pos F HF d2).
  pose proof (cdf_pos F HF (- d1)). pose proof (cdf_pos F HF (- d2)).
  pose proof (cdf_lt_1 F d1 HF). pose proof (cdf_lt_1 F (- d2) HF).
  split.
  - assert (0 < K * exp ((- r) * T) * F d2) by (apply Rmult_lt_0_compat; lra).
    assert (S * F d1 < S) by nra. lra.
  - assert (0 < S * F (- d1)) by (apply Rmult_lt_0_compat; lra).
    assert (K * exp ((- r) * T) * F (- d2) < K * exp ((- r) * T)) by nra. lra.
Qed.

Lemma bsm_price_upper_bounds_witness :
  exists call put,
    black_scholes_merton logistic 100 110 (30 / 365) 0.05 20 "call" = Some call /\
    black_scholes_merton logistic 100 110 (30 / 365) 0.05 20 "put" = Some put /\
    call < 100 /\ put < 110 * exp ((Ropp 0.05) * (30 / 365)).
Proof.
  apply bsm_price_upper_bounds; [apply logistic_cdf_like | lra | lra | lra | lra].
Defined.

Lemma py_div_scale x y c : c <> 0 -> py_div (c * x) (c * y) = py_div x y.
Proof.
  intros Hc. unfold py_div.
  destruct (Req_EM_T (c * y) 0) as [H1 | H1], (Req_EM_T y 0) as [H2 | H2];
    try reflexivity.
  - exfalso. apply Rmult_integral in H1. lra.
  - exfalso. apply H1. rewrite H2. ring.
  - f_equal. field. split; assumption.
Qed.

(** Units: scaling spot and strike by the same [c > 0] scales the price
    by [c], and raises exactly when the unscaled call raises. *)
Theorem bsm_scale_invariant F S K T r sigma option_type c :
  0 < c ->
  black_scholes_merton F (c * S) (c * K) T r sigma option_type =
  option_map (fun v => c * v) (black_scholes_merton F S K T r sigma option_type).
Proof.
  intros Hc. unfold black_scholes_merton.
  rewrite py_div_scale by lra.
  destruct (py_div S K) as [SK|]; [|reflexivity]. obind_simpl.
  destruct (py_log SK) as [l|]; [|reflexivity]. obind_simpl.
  destruct (py_sqrt T) as [sT|]; [|reflexivity]. obind_simpl.
  destruct (py_div _ _) as [d1|]; [|reflexivity]. obind_simpl.
  destruct (is_call option_type); simpl; f_equal; ring.
Qed.

Lemma bsm_scale_invariant_witness :
  black_scholes_merton logistic (2 * 100) (2 * 110) (30 / 365) 0.05 20 "call" =
  option_map (fun v => 2 * v) (black_scholes_merton logistic 100 110 (30 / 365) 0.05 20 "call").
Proof. apply bsm_scale_invariant. lra. Defined.

(** ** [binomial_option_price]: errors, parity, bounds, early exercise *)

Lemma exp_minus_inv_zero x : exp x - 1 / exp x = 0 <-> x = 0.
Proof.
  split.
  - intros H. pose proof (exp_pos x) as Hu.
    assert (Hsq : exp x * exp x = 1).
    { apply Rminus_diag_uniq in H. rewrite H at 1. field. lra. }
    assert (Hone : exp x = exp 0) by (rewrite exp_0; nra).
    apply exp_inv in Hone. exact Hone.
  - intros ->. rewrite exp_0. field.
Qed.

Lemma vol_to_decimal_zero sigma : vol_to_decimal sigma = 0 <-> sigma = 0.
Proof. unfold vol_to_decimal. destruct (Rlt_dec 1 sigma); split; lra. Qed.

(** The exceptions of the lattice pricer: [T / steps] with [steps == 0],
    [math.sqrt] of a negative [dt], and the division by [u - d] when the
    tree does not spread ([sigma == 0] or [T == 0]). *)
Theorem binomial_raises_iff S K T r sigma option_type steps american
    dividend_yield :
  binomial_option_price S K T r sigma option_type steps american dividend_yield = None <->
  (steps = 0%nat \/ T <= 0 \/ sigma = 0).
Proof.
  unfold binomial_option_price. cbv zeta.
  destruct steps as [|n].
  - rewrite INR_0, py_div_zero. split; auto.
  - rewrite py_div_ok by (apply not_0_INR; lia). obind_simpl.
    assert (Hn : 0 < INR (Datatypes.S n)) by (apply lt_0_INR; lia).
    destruct (Rlt_dec (T / INR (Datatypes.S n)) 0) as [Hneg | Hnn].
    + rewrite py_sqrt_neg by assumption.
      split; [intros _; right; left | reflexivity].
      destruct (Rle_dec T 0) as [|HT]; [assumption|].
      exfalso. assert (0 < T / INR (Datatypes.S n)) by (apply Rdiv_lt_0_compat; lra). lra.
    + rewrite py_sqrt_ok by lra. obind_simpl.
      rewrite py_div_ok by (apply Rgt_not_eq, exp_pos). obind_simpl.
      assert (HT : 0 <= T).
      { destruct (Rle_dec 0 T) as [|HT]; [assumption|].
        exfalso. apply Hnn. unfold Rdiv. apply Rmult_neg_pos; [lra | apply Rinv_0_lt_compat; lra]. }
      set (x := vol_to_decimal sigma * sqrt (T / INR (Datatypes.S n))).
      unfold py_div at 1.
      destruct (Req_EM_T (exp x - 1 / exp x) 0) as [Hz | Hz].
      * split; [intros _ | reflexivity].
        apply (proj1 (exp_minus_inv_zero _)) in Hz. unfold x in Hz.
        apply Rmult_integral in Hz. destruct Hz as [Hz | Hz].
        -- right; right. apply vol_to_decimal_zero. assumption.
        -- right; left. apply sqrt_eq_0 in Hz; [|lra].
           unfold Rdiv in Hz. apply Rmult_integral in Hz.
           destruct Hz as [Hz | Hz]; [lra|].
           exfalso. apply (Rinv_neq_0_compat (INR (Datatypes.S n))); lra.
      * split; [discriminate|].
        intros [H | [H | H]]; [discriminate | |]; exfalso; apply Hz;
          apply (proj2 (exp_minus_inv_zero _)); unfold x.
        -- replace T with 0 by lra. unfold Rdiv. rewrite Rmult_0_l, sqrt_0. ring.
        -- rewrite H. replace (vol_to_decimal 0) with 0 by (symmetry; apply vol_to_decimal_zero; reflexivity).
           ring.
Qed.

Lemma intrinsic_parity K x : intrinsic K "call" x - intrinsic K "put" x = x - K.
Proof.
  unfold intrinsic. rewrite is_call_call, is_call_put.
  unfold Rmax. destruct (Rle_dec 0 (x - K)), (Rle_dec 0 (K - x)); lra.
Qed.

Lemma node_price_children S u d steps k j :
  (j + Datatypes.S k <= steps)%nat ->
  node_price S u d steps k j = u * node_price S u d steps (Datatypes.S k) j /\
  node_price S u d steps k (j + 1) = d * node_price S u d steps (Datatypes.S k) j.
Proof.
  intros H. unfold node_price. split.
  - replace (steps - k - j)%nat with (Datatypes.S (steps - Datatypes.S k - j)) by lia.
    simpl. ring.
  - replace (steps - k - (j + 1))%nat with (steps - Datatypes.S k - j)%nat by lia.
    rewrite pow_add. simpl. ring.
Qed.

Lemma exp_pow x n : exp x ^ n = exp (INR n * x).
Proof.
  induction n as [|n IH].
  - simpl. rewrite Rmult_0_l, exp_0. reflexivity.
  - rewrite S_INR. simpl pow. rewrite IH, <- exp_plus. f_equal. ring.
Qed.

(** Call minus put at every node of a European lattice, whatever [p]:
    the discounted forward of the node's asset price minus the discounted
    strike, with [a = p u + (1 - p) d] the one-step growth factor. *)
Lemma crr_parity_nodes S K u d p df a steps :
  p * u + (1 - p) * d = a ->
  forall k j, (j + k <= steps)%nat ->
    crr_value S K u d p df "call" false steps k j
    - crr_value S K u d p df "put" false steps k j =
    node_price S u d steps k j * (df * a) ^ k - K * df ^ k.
Proof.
  intros Ha k. induction k as [|k IH]; intros j Hj.
  - simpl crr_value. rewrite intrinsic_parity. unfold node_price. rewrite Nat.sub_0_r. simpl pow. ring.
  - rewrite !crr_value_succ. unfold node_value. cbv iota.
    destruct (node_price_children S u d steps k j) as [E1 E2]; [lia|].
    transitivity (df * (p * (crr_value S K u d p df "call" false steps k j
                             - crr_value S K u d p df "put" false steps k j)
                        + (1 - p) * (crr_value S K u d p df "call" false steps k (j + 1)
                                     - crr_value S K u d p df "put" false steps k (j + 1)))).
    { ring. }
    rewrite IH, IH by lia. rewrite E1, E2. rewrite <- Ha. simpl pow. ring.
Qed.

(** European put-call parity of the lattice pricer:
    [call - put = S e^(-q T) - K e^(-r T)] exactly, for every valid input
    (no condition on the CRR probability). *)
Theorem binomial_put_call_parity S K T r sigma steps dividend_yield :
  (1 <= steps)%nat -> 0 < T -> sigma <> 0 ->
  exists call put,
    binomial_option_price S K T r sigma "call" steps false dividend_yield = Some call /\
    binomial_option_price S K T r sigma "put" steps false dividend_yield = Some put /\
    call - put = S * exp ((- dividend_yield) * T) - K * exp ((- r) * T).
Proof.
  intros Hn HT Hs.
  rewrite !binomial_refines_crr by assumption.
  do 2 eexists. split; [reflexivity | split; [reflexivity|]].
  unfold crr_reference. cbv zeta.
  pose proof (vol_to_decimal_neq0 sigma Hs) as Hs'.
  destruct (crr_params_ok T steps (vol_to_decimal sigma) Hn HT Hs') as [Hdt Hud].
  set (dt := T / INR steps) in *.
  set (u := exp (vol_to_decimal sigma * sqrt dt)) in *.
  assert (Hu0 : u <> 0) by (apply Rgt_not_eq, exp_pos).
  assert (Ha : (exp ((r - dividend_yield) * dt) - 1 / u) / (u - 1 / u) * u
               + (1 - (exp ((r - dividend_yield) * dt) - 1 / u) / (u - 1 / u)) * (1 / u)
               = exp ((r - dividend_yield) * dt)).
  { field. split; [assumption|]. intros E. apply Hud.
    replace (u - 1 / u) with ((u * u - 1) / u) by (field; assumption).
    rewrite E. unfold Rdiv. ring. }
  rewrite (crr_parity_nodes S K u (1 / u) _ _ _ steps Ha) by lia.
  unfold node_price. rewrite Nat.sub_diag. simpl pow. rewrite !Rmult_1_r.
  rewrite <- exp_plus, !exp_pow.
  assert (HT' : INR steps * dt = T) by (unfold dt; field; apply not_0_INR; lia).
  replace (INR steps * ((- r) * dt + (r - dividend_yield) * dt))
    with ((- dividend_yield) * (INR steps * dt)) by ring.
  replace (INR steps * ((- r) * dt)) with ((- r) * (INR steps * dt)) by ring.
  rewrite HT'. reflexivity.
Qed.

Lemma binomial_put_call_parity_witness :
  exists call put,
    binomial_option_price 100 110 (30 / 365) 0.05 0.2 "call" 100 false 0 = Some call /\
    binomial_option_price 100 110 (30 / 365) 0.05 0.2 "put" 100 false 0 = Some put /\
    call - put = 100 * exp ((Ropp 0) * (30 / 365)) - 110 * exp ((Ropp 0.05) * (30 / 365)).
Proof. apply binomial_put_call_parity; [lia | lra | lra]. Defined.

(** The CRR parameters of a valid input under the no-arbitrage condition
    [d <= e^((r - q) dt) <= u]. *)
Lemma crr_setup T r sigma steps q :
  (1 <= steps)%nat -> 0 < T -> 0 < sigma ->
  Rabs ((r - q) * (T / INR steps)) <= vol_to_decimal sigma * sqrt (T / INR steps) ->
  let dt := T / INR steps in
  let u := exp (vol_to_decimal sigma * sqrt dt) in
  let p := (exp ((r - q) * dt) - 1 / u) / (u - 1 / u) in
  0 < dt /\ 0 <= p <= 1 /\ 1 < u /\ p * u + (1 - p) * (1 / u) = exp ((r - q) * dt).
Proof.
  intros Hn HT Hs Harb dt u p.
  assert (Hs' : 0 < vol_to_decimal sigma).
  { unfold vol_to_decimal. destruct (Rlt_dec 1 sigma); lra. }
  destruct (crr_params_ok T steps (vol_to_decimal sigma) Hn HT ltac:(lra)) as [Hdt Hud].
  fold dt in Hdt, Hud. fold u in Hud.
  assert (Hx : 0 < vol_to_decimal sigma * sqrt dt)
    by (apply Rmult_lt_0_compat; [assumption | apply sqrt_lt_R0; assumption]).
  assert (Hu : 1 < u).
  { unfold u. pose proof (exp_increasing 0 _ Hx) as E. rewrite exp_0 in E. exact E. }
  split; [assumption | split; [|split; [assumption|]]].
  - apply crr_probability_bounds; assumption.
  - unfold p. field. split; [lra|]. intros E. apply Hud.
    replace (u - 1 / u) with ((u * u - 1) / u) by (field; lra).
    rewrite E. unfold Rdiv. ring.
Qed.

Lemma crr_nonneg S K u d p df option_type american steps :
  0 <= df -> 0 <= p <= 1 ->
  forall k j, 0 <= crr_value S K u d p df option_type american steps k j.
Proof.
  intros Hdf Hp k. induction k as [|k IH]; intros j.
  - simpl. unfold intrinsic. destruct (is_call option_type); apply Rmax_l.
  - rewrite crr_value_succ. unfold node_value.
    assert (0 <= df * (p * crr_value S K u d p df option_type american steps k j
                       + (1 - p) * crr_value S K u d p df option_type american steps k (j + 1))).
    { apply Rmult_le_pos; [assumption|].
      apply Rplus_le_le_0_compat; apply Rmult_le_pos; try lra; apply IH. }
    destruct american; [eapply Rle_trans; [|apply Rmax_l]|]; assumption.
Qed.

Lemma crr_put_le_strike S K u d p df american steps :
  0 <= S -> 0 <= u -> 0 <= d -> 0 <= K -> 0 <= df <= 1 -> 0 <= p <= 1 ->
  forall k j, crr_value S K u d p df "put" american steps k j <= K.
Proof.
  intros HS Hu Hd HK Hdf Hp.
  assert (Hi : forall m j, intrinsic K "put" (S * u ^ m * d ^ j) <= K).
  { intros m j. rewrite intrinsic_put. apply Rmax_lub; [assumption|].
    assert (0 <= S * u ^ m * d ^ j)
      by (apply Rmult_le_pos; [apply Rmult_le_pos; [|apply pow_le]|apply pow_le]; assumption).
    lra. }
  intros k. induction k as [|k IH]; intros j.
  - apply Hi.
  - rewrite crr_value_succ. unfold node_value.
    set (x := crr_value S K u d p df "put" american steps k j).
    set (y := crr_value S K u d p df "put" american steps k (j + 1)).
    assert (Hc : df * (p * x + (1 - p) * y) <= K).
    { assert (p * x + (1 - p) * y <= K).
      { pose proof (IH j). pose proof (IH (j + 1)%nat). fold x y in H, H0. nra. }
      assert (0 <= p * x + (1 - p) * y).
      { pose proof (crr_nonneg S K u d p df "put" american steps ltac:(lra) Hp k j).
        pose proof (crr_nonneg S K u d p df "put" american steps ltac:(lra) Hp k (j + 1)).
        fold x y in H0, H1. nra. }
      nra. }
    destruct american; [apply Rmax_lub; [assumption | apply Hi] | assumption].
Qed.

Lemma crr_call_le_node S K u d p df a american steps :
  0 <= S -> 0 <= u -> 0 <= d -> 0 <= K -> 0 <= df -> 0 <= p <= 1 ->
  df * a <= 1 -> p * u + (1 - p) * d = a ->
  forall k j, (j + k <= steps)%nat ->
    crr_value S K u d p df "call" american steps k j <= node_price S u d steps k j.
Proof.
  intros HS Hu Hd HK Hdf Hp Hda Ha.
  assert (Hnp : forall k j, 0 <= node_price S u d steps k j).
  { intros k j. unfold node_price.
    apply Rmult_le_pos; [apply Rmult_le_pos; [|apply pow_le]|apply pow_le]; assumption. }
  intros k. induction k as [|k IH]; intros j Hj.
  - simpl crr_value. unfold intrinsic, node_price. rewrite is_call_call, Nat.sub_0_r.
    apply Rmax_lub.
    + apply Rmult_le_pos; [apply Rmult_le_pos; [|apply pow_le]|apply pow_le]; assumption.
    + lra.
  - rewrite crr_value_succ. unfold node_value.
    destruct (node_price_children S u d steps k j) as [E1 E2]; [lia|].
    set (X := node_price S u d steps (Datatypes.S k) j) in *.
    pose proof (IH j ltac:(lia)) as H1. pose proof (IH (j + 1)%nat ltac:(lia)) as H2.
    rewrite E1 in H1. rewrite E2 in H2.
    assert (Hc : df * (p * crr_value S K u d p df "call" american steps k j
                       + (1 - p) * crr_value S K u d p df "call" american steps k (j + 1))
                 <= X).
    { apply Rle_trans with (df * (p * (u * X) + (1 - p) * (d * X))).
      - apply Rmult_le_compat_l; [assumption|].
        apply Rplus_le_compat; apply Rmult_le_compat_l; lra.
      - replace (df * (p * (u * X) + (1 - p) * (d * X))) with (df * a * X)
          by (rewrite <- Ha; ring).
        pose proof (Hnp (Datatypes.S k) j). fold X in H. nra. }
    destruct american; [|assumption].
    apply Rmax_lub; [assumption|].
    unfold intrinsic. rewrite is_call_call. apply Rmax_lub.
    + apply (Hnp (Datatypes.S k) j).
    + unfold X, node_price. lra.
Qed.

(** Price bounds of the lattice pricer under the no-arbitrage condition
    [|(r - q) dt| <= sigma' sqrt dt] ([sigma'] the decimal volatility,
    [dt = T / steps]): the price is non-negative, a call is worth at most
    the spot when [q >= 0], and a put at most the strike when [r >= 0];
    European or American alike. *)
Theorem binomial_price_bounds S K T r sigma option_type steps american
    dividend_yield :
  (1 <= steps)%nat -> 0 < T -> 0 < sigma -> 0 <= S -> 0 <= K ->
  Rabs ((r - dividend_yield) * (T / INR steps)) <=
    vol_to_decimal sigma * sqrt (T / INR steps) ->
  exists price,
    binomial_option_price S K T r sigma option_type steps american dividend_yield =
      Some price /\
    0 <= price /\
    (is_call option_type = true -> 0 <= dividend_yield -> price <= S) /\
    (is_call option_type = false -> 0 <= r -> price <= K).
Proof.
  intros Hn HT Hs HS HK Harb.
  destruct (crr_setup T r sigma steps dividend_yield Hn HT Hs Harb)
    as (Hdt & Hp & Hu & Ha).
  rewrite binomial_refines_crr by (try assumption; lra).
  eexists. split; [reflexivity|]. unfold crr_reference. cbv zeta.
  set (dt := T / INR steps) in *.
  set (u := exp (vol_to_decimal sigma * sqrt dt)) in *.
  assert (Hd : 0 <= 1 / u) by (left; apply Rdiv_lt_0_compat; lra).
  assert (Hdf : 0 < exp ((- r) * dt)) by apply exp_pos.
  split; [apply crr_nonneg; lra|]. split.
  - intros Hc Hq.
    assert (Hintr : forall k j, intrinsic K option_type (S * u ^ k * (1 / u) ^ j)
                             = intrinsic K "call" (S * u ^ k * (1 / u) ^ j))
      by (intros; unfold intrinsic; rewrite Hc, is_call_call; reflexivity).
    assert (Heq : forall am k j,
               crr_value S K u (1 / u) ((exp ((r - dividend_yield) * dt) - 1 / u) / (u - 1 / u))
                 (exp ((- r) * dt)) option_type am steps k j
               = crr_value S K u (1 / u) ((exp ((r - dividend_yield) * dt) - 1 / u) / (u - 1 / u))
                 (exp ((- r) * dt)) "call" am steps k j).
    { intros am k. induction k as [|k IH]; intros j; simpl crr_value.
      - apply Hintr.
      - rewrite !IH, !Hintr. reflexivity. }
    rewrite Heq.
    replace S with (node_price S u (1 / u) steps steps 0) at 2
      by (unfold node_price; rewrite Nat.sub_diag; simpl; ring).
    apply (crr_call_le_node _ _ _ _ _ _ (exp ((r - dividend_yield) * dt)));
      try lra; try lia.
    rewrite <- exp_plus. rewrite <- exp_0. apply exp_le. nra.
  - intros Hc Hr.
    assert (Hintr : forall k j, intrinsic K option_type (S * u ^ k * (1 / u) ^ j)
                             = intrinsic K "put" (S * u ^ k * (1 / u) ^ j))
      by (intros; unfold intrinsic; rewrite Hc, is_call_put; reflexivity).
    assert (Heq : forall am k j,
               crr_value S K u (1 / u) ((exp ((r - dividend_yield) * dt) - 1 / u) / (u - 1 / u))
                 (exp ((- r) * dt)) option_type am steps k j
               = crr_value S K u (1 / u) ((exp ((r - dividend_yield) * dt) - 1 / u) / (u - 1 / u))
                 (exp ((- r) * dt)) "put" am steps k j).
    { intros am k. induction k as [|k IH]; intros j; simpl crr_value.
      - apply Hintr.
      - rewrite !IH, !Hintr. reflexivity. }
    rewrite Heq.
    apply crr_put_le_strike; try lra.
    split; [lra|]. rewrite <- exp_0. apply exp_le. nra.
Qed.

Lemma binomial_price_bounds_witness :
  exists price,
    binomial_option_price 100 100 1 0 0.2 "put" 2 true 0 = Some price /\
    0 <= price /\
    (is_call "put" = true -> 0 <= 0 -> price <= 100) /\
    (is_call "put" = false -> 0 <= 0 -> price <= 100).
Proof.
  apply binomial_price_bounds; [lia | lra | lra | lra | lra |].
  replace ((0 - 0) * (1 / INR 2)) with 0 by ring. rewrite Rabs_R0.
  apply Rmult_le_pos; [rewrite vol_to_decimal_decimal; lra | apply sqrt_pos].
Defined.

(** An American price is never below the value of exercising at once,
    [max(0, S - K)] for a call and [max(0, K - S)] for a put: the root of the
    lattice takes the early-exercise max too. *)
Theorem binomial_american_ge_exercise S K T r sigma option_type steps
    dividend_yield :
  (1 <= steps)%nat -> 0 < T -> sigma <> 0 ->
  exists price,
    binomial_option_price S K T r sigma option_type steps true dividend_yield =
      Some price /\
    intrinsic K option_type S <= price.
Proof.
  intros Hn HT Hs.
  rewrite binomial_refines_crr by assumption.
  eexists. split; [reflexivity|]. unfold crr_reference. cbv zeta.
  destruct steps as [|n]; [lia|].
  rewrite crr_value_succ. unfold node_value. cbv iota.
  rewrite Nat.sub_diag. simpl pow. rewrite !Rmult_1_r. apply Rmax_r.
Qed.

Lemma binomial_american_ge_exercise_witness :
  exists price,
    binomial_option_price 100 110 (30 / 365) 0.05 20 "put" 100 true 0 = Some price /\
    intrinsic 110 "put" 100 <= price.
Proof. apply binomial_american_ge_exercise; [lia | lra | lra]. Defined.

Lemma pow_le_1 x n : 0 <= x <= 1 -> x ^ n <= 1.
Proof.
  intros Hx. induction n as [|n IH]; simpl; [lra|].
  pose proof (pow_le x n ltac:(lra)). nra.
Qed.

(** Without dividends and with [r >= 0], early exercise of a call never
    pays at any node: the American and European lattices agree, and every
    node is worth at least its asset price minus the discounted strike. *)
Lemma crr_call_no_early_exercise S K u d p df a steps :
  0 <= K -> 0 <= df <= 1 -> 0 <= p <= 1 -> df * a = 1 ->
  p * u + (1 - p) * d = a ->
  forall k j, (j + k <= steps)%nat ->
    crr_value S K u d p df "call" true steps k j =
      crr_value S K u d p df "call" false steps k j /\
    node_price S u d steps k j - K * df ^ k <=
      crr_value S K u d p df "call" false steps k j.
Proof.
  intros HK Hdf Hp Hda Ha k. induction k as [|k IH]; intros j Hj.
  - split; [reflexivity|]. simpl crr_value. unfold intrinsic, node_price.
    rewrite is_call_call, Nat.sub_0_r. simpl pow. rewrite Rmult_1_r. apply Rmax_r.
  - destruct (IH j ltac:(lia)) as [Ea La]. destruct (IH (j + 1)%nat ltac:(lia)) as [Eb Lb].
    destruct (node_price_children S u d steps k j) as [E1 E2]; [lia|].
    set (X := node_price S u d steps (Datatypes.S k) j) in *.
    rewrite E1 in La. rewrite E2 in Lb.
    rewrite !crr_value_succ. unfold node_value. cbv iota. rewrite Ea, Eb.
    set (va := crr_value S K u d p df "call" false steps k j) in *.
    set (vb := crr_value S K u d p df "call" false steps k (j + 1)) in *.
    assert (Hlow : X - K * df ^ Datatypes.S k <= df * (p * va + (1 - p) * vb)).
    { apply Rle_trans with (df * (p * (u * X - K * df ^ k) + (1 - p) * (d * X - K * df ^ k))).
      - replace (df * (p * (u * X - K * df ^ k) + (1 - p) * (d * X - K * df ^ k)))
          with (df * a * X - K * df ^ Datatypes.S k) by (rewrite <- Ha; simpl; ring).
        rewrite Hda. lra.
      - apply Rmult_le_compat_l; [lra|].
        apply Rplus_le_compat; apply Rmult_le_compat_l; lra. }
    split; [|assumption].
    apply Rmax_left. unfold intrinsic. rewrite is_call_call. apply Rmax_lub.
    + apply Rmult_le_pos; [lra|].
      pose proof (crr_nonneg S K u d p df "call" false steps ltac:(lra) Hp k j).
      pose proof (crr_nonneg S K u d p df "call" false steps ltac:(lra) Hp k (j + 1)).
      fold va vb in H, H0. nra.
    + assert (K * df ^ Datatypes.S k <= K).
      { pose proof (pow_le_1 df (Datatypes.S k) Hdf). pose proof (pow_le df (Datatypes.S k) ltac:(lra)). nra. }
      unfold X, node_price in Hlow. lra.
Qed.

(** No early exercise of calls: with no dividend yield, a non-negative
    rate and the no-arbitrage condition [|r dt| <= sigma' sqrt dt], the
    American call is priced exactly as the European one. *)
Theorem binomial_american_call_is_european S K T r sigma steps :
  (1 <= steps)%nat -> 0 < T -> 0 < sigma -> 0 <= K -> 0 <= r ->
  Rabs ((r - 0) * (T / INR steps)) <= vol_to_decimal sigma * sqrt (T / INR steps) ->
  binomial_option_price S K T r sigma "call" steps true 0 =
  binomial_option_price S K T r sigma "call" steps false 0.
Proof.
  intros Hn HT Hs HK Hr Harb.
  destruct (crr_setup T r sigma steps 0 Hn HT Hs Harb) as (Hdt & Hp & Hu & Ha).
  rewrite !binomial_refines_crr by (try assumption; lra).
  f_equal. unfold crr_reference. cbv zeta.
  apply (crr_call_no_early_exercise S K _ _ _ _ (exp ((r - 0) * (T / INR steps))));
    try assumption; try lia.
  - split; [left; apply exp_pos|]. rewrite <- exp_0. apply exp_le. nra.
  - rewrite <- exp_plus. replace ((- r) * (T / INR steps) + (r - 0) * (T / INR steps)) with 0
      by ring. apply exp_0.
Qed.

Lemma binomial_american_call_is_european_witness :
  binomial_option_price 100 110 1 0 0.2 "call" 2 true 0 =
  binomial_option_price 100 110 1 0 0.2 "call" 2 false 0.
Proof.
  apply binomial_american_call_is_european; [lia | lra | lra | lra | lra |].
  replace ((0 - 0) * (1 / INR 2)) with 0 by ring. rewrite Rabs_R0.
  apply Rmult_le_pos; [rewrite vol_to_decimal_decimal; lra | apply sqrt_pos].
Defined.

Lemma intrinsic_scale c K option_type x :
  0 <= c -> intrinsic (c * K) option_type (c * x) = c * intrinsic K option_type x.
Proof.
  intros Hc. unfold intrinsic.
  destruct (is_call option_type); rewrite <- RmaxRmult by assumption;
    rewrite Rmult_0_r; f_equal; ring.
Qed.

Lemma crr_value_scale c S K u d p df option_type american steps :
  0 <= c ->
  forall k j,
    crr_value (c * S) (c * K) u d p df option_type american steps k j =
    c * crr_value S K u d p df option_type american steps k j.
Proof.
  intros Hc k. induction k as [|k IH]; intros j; simpl crr_value.
  - rewrite <- intrinsic_scale by assumption. f_equal. ring.
  - rewrite !IH.
    replace (c * S * u ^ (steps - Datatypes.S k - j) * d ^ j)
      with (c * (S * u ^ (steps - Datatypes.S k - j) * d ^ j)) by ring.
    rewrite intrinsic_scale by assumption.
    destruct american.
    + rewrite <- RmaxRmult by assumption. f_equal. ring.
    + ring.
Qed.

(** Units: scaling spot and strike by the same [c > 0] scales the lattice
    price by [c] (and changes nothing about when it raises). *)
Theorem binomial_scale_invariant S K T r sigma option_type steps american
    dividend_yield c :
  0 < c ->
  binomial_option_price (c * S) (c * K) T r sigma option_type steps american dividend_yield =
  option_map (fun v => c * v)
    (binomial_option_price S K T r sigma option_type steps american dividend_yield).
Proof.
  intros Hc.
  destruct (Nat.eq_dec steps 0) as [Hn | Hn];
    [|destruct (Rle_dec T 0) as [HT | HT];
      [|destruct (Req_EM_T sigma 0) as [Hs | Hs]]].
  1-3: rewrite (proj2 (binomial_raises_iff S K T r sigma option_type steps american
                         dividend_yield)) by auto;
       apply (proj2 (binomial_raises_iff _ _ _ _ _ _ _ _ _)); auto.
  rewrite !binomial_refines_crr by (try lia; lra).
  simpl option_map. f_equal. unfold crr_reference. cbv zeta.
  apply crr_value_scale. lra.
Qed.

Lemma binomial_scale_invariant_witness :
  binomial_option_price (2 * 100) (2 * 110) (30 / 365) 0.05 0.2 "put" 100 true 0 =
  option_map (fun v => 2 * v)
    (binomial_option_price 100 110 (30 / 365) 0.05 0.2 "put" 100 true 0).
Proof. apply binomial_scale_invariant. lra. Defined.

(** ** [bates_simplified]: errors, units, put-call relation *)

(** A non-positive maturity always raises: the [n = 0] term has
    [jump_prob = e^(-lambda T) >= 1], so it is kept, and it divides by [T]
    ([ZeroDivisionError] at [T == 0]) and takes [math.sqrt(T)] ([ValueError]
    for [T < 0]). *)
Theorem bates_raises_nonpositive_T F S K T r sigma lambda_param mu_j sigma_j
    option_type :
  0 <= lambda_param -> T <= 0 ->
  bates_simplified F S K T r sigma lambda_param mu_j sigma_j option_type = None.
Proof.
  intros Hl HT. unfold bates_simplified. cbv zeta.
  simpl seq. rewrite bates_loop_cons. unfold bates_term at 1. cbv zeta.
  destruct (Rlt_dec _ 1e-10) as [Hlt | _].
  - exfalso. revert Hlt. simpl pow. simpl fact. rewrite INR_1, Rmult_1_l, Rdiv_1_r.
    rewrite eps_value.
    assert (1 <= exp ((- lambda_param) * T)).
    { rewrite <- exp_0 at 1. apply exp_le. nra. }
    pose proof (Rinv_0_lt_compat 10000000000 ltac:(lra)) as H0.
    assert (/ 10000000000 < 1).
    { rewrite <- Rinv_1. apply Rinv_lt_contravar; lra. }
    lra.
  - unfold py_div at 1. destruct (Req_EM_T T 0) as [H0 | H0]; [reflexivity|].
    obind_simpl.
    destruct (py_sqrt _); [|reflexivity]. obind_simpl.
    destruct (py_div _ K); [|reflexivity]. obind_simpl.
    destruct (py_log _); [|reflexivity]. obind_simpl.
    rewrite py_sqrt_neg by lra. reflexivity.
Qed.

Lemma bates_raises_nonpositive_T_witness :
  bates_simplified logistic 100 110 0 0.05 20 2 (-0.02) 0.05 "call" = None.
Proof. apply bates_raises_nonpositive_T; lra. Defined.

Lemma bates_term_scale F S K T r sigma l mu sj adj ot n acc c :
  0 < c ->
  bates_term F (c * S) (c * K) T r sigma l mu sj adj ot n (c * acc) =
  option_map (fun v => c * v) (bates_term F S K T r sigma l mu sj adj ot n acc).
Proof.
  intros Hc. unfold bates_term. cbv zeta.
  destruct (Rlt_dec _ 1e-10); [reflexivity|].
  destruct (py_div _ T); [|reflexivity]. obind_simpl.
  destruct (py_sqrt _); [|reflexivity]. obind_simpl.
  replace (c * S * exp (INR n * mu)) with (c * (S * exp (INR n * mu))) by ring.
  rewrite py_div_scale by lra.
  destruct (py_div _ K); [|reflexivity]. obind_simpl.
  destruct (py_log _); [|reflexivity]. obind_simpl.
  destruct (py_sqrt T); [|reflexivity]. obind_simpl.
  destruct (py_div _ _); [|reflexivity]. obind_simpl.
  destruct (is_call ot); simpl; f_equal; ring.
Qed.

Lemma bates_loop_scale F S K T r sigma l mu sj adj ot ns acc c :
  0 < c ->
  bates_loop F (c * S) (c * K) T r sigma l mu sj adj ot ns (c * acc) =
  option_map (fun v => c * v) (bates_loop F S K T r sigma l mu sj adj ot ns acc).
Proof.
  intros Hc. revert acc. induction ns as [|n ns IH]; intros acc; [reflexivity|].
  rewrite !bates_loop_cons, bates_term_scale by assumption.
  destruct (bates_term F S K T r sigma l mu sj adj ot n acc); [|reflexivity].
  simpl. apply IH.
Qed.

(** Units: scaling spot and strike by the same [c > 0] scales the jump
    price by [c] (and changes nothing about when it raises). *)
Theorem bates_scale_invariant F S K T r sigma lambda_param mu_j sigma_j
    option_type c :
  0 < c ->
  bates_simplified F (c * S) (c * K) T r sigma lambda_param mu_j sigma_j option_type =
  option_map (fun v => c * v)
    (bates_simplified F S K T r sigma lambda_param mu_j sigma_j option_type).
Proof.
  intros Hc. unfold bates_simplified. cbv zeta.
  pose proof (bates_loop_scale F S K T r (vol_to_decimal sigma) lambda_param mu_j sigma_j
                (r - lambda_param * (exp (mu_j + 0.5 * sigma_j ^ 2) - 1))
                option_type (seq 0 10) 0 c Hc) as E.
  rewrite Rmult_0_r in E. exact E.
Qed.

Lemma bates_scale_invariant_witness :
  bates_simplified logistic (2 * 100) (2 * 110) (30 / 365) 0.05 20 2 (-0.02) 0.05 "call" =
  option_map (fun v => 2 * v)
    (bates_simplified logistic 100 110 (30 / 365) 0.05 20 2 (-0.02) 0.05 "call").
Proof. apply bates_scale_invariant. lra. Defined.

Lemma bates_term_parity F S K T r sigma l mu sj adj n a1 a2 :
  cdf_like F -> 0 < S -> 0 < K -> 0 < T -> sigma <> 0 ->
  exists x y,
    bates_term F S K T r sigma l mu sj adj "call" n a1 = Some x /\
    bates_term F S K T r sigma l mu sj adj "put" n a2 = Some y /\
    x - y = a1 - a2 + bates_kept_forward S K T r l mu [n].
Proof.
  intros HF HS HK HT Hs.
  unfold bates_term, bates_kept_forward. cbv zeta.
  set (P := (l * T) ^ n * exp ((- l) * T) / INR (fact n)).
  destruct (Rlt_dec P 1e-10) as [Hlt | Hkeep].
  { do 2 eexists. split; [reflexivity | split; [reflexivity | ring]]. }
  rewrite py_div_ok by lra. obind_simpl.
  assert (Hv : 0 <= INR n * sj ^ 2 / T).
  { unfold Rdiv. apply Rmult_le_pos; [apply Rmult_le_pos; [apply pos_INR | apply pow2_ge_0]|].
    left. apply Rinv_0_lt_compat. lra. }
  assert (Hs2 : 0 < sigma ^ 2).
  { pose proof (Rsqr_pos_lt sigma Hs). unfold Rsqr in *. simpl. lra. }
  rewrite py_sqrt_ok by lra. obind_simpl.
  set (sn := sqrt (sigma ^ 2 + INR n * sj ^ 2 / T)).
  assert (Hsn : 0 < sn) by (apply sqrt_lt_R0; lra).
  set (Sn := S * exp (INR n * mu)).
  assert (HSn : 0 < Sn) by (apply Rmult_lt_0_compat; [lra | apply exp_pos]).
  rewrite py_div_ok by lra. obind_simpl.
  rewrite py_log_ok by (apply Rdiv_lt_0_compat; lra). obind_simpl.
  rewrite py_sqrt_ok by lra. obind_simpl.
  assert (HsT : 0 < sqrt T) by (apply sqrt_lt_R0; lra).
  rewrite py_div_ok by (apply Rmult_integral_contrapositive; split; lra).
  obind_simpl. rewrite is_call_call, is_call_put.
  do 2 eexists. split; [reflexivity | split; [reflexivity|]].
  rewrite !(cdf_sym F HF). ring.
Qed.

Lemma bates_loop_parity F S K T r sigma l mu sj adj ns a1 a2 :
  cdf_like F -> 0 < S -> 0 < K -> 0 < T -> sigma <> 0 ->
  exists x y,
    bates_loop F S K T r sigma l mu sj adj "call" ns a1 = Some x /\
    bates_loop F S K T r sigma l mu sj adj "put" ns a2 = Some y /\
    x - y = a1 - a2 + bates_kept_forward S K T r l mu ns.
Proof.
  intros HF HS HK HT Hs. revert a1 a2.
  induction ns as [|n ns IH]; intros a1 a2.
  - exists a1, a2. simpl. split; [reflexivity | split; [reflexivity | ring]].
  - destruct (bates_term_parity F S K T r sigma l mu sj adj n a1 a2 HF HS HK HT Hs)
      as (x1 & y1 & Hx & Hy & Hd).
    rewrite !bates_loop_cons, Hx, Hy. obind_simpl.
    destruct (IH x1 y1) as (x & y & Hx' & Hy' & Hd').
    exists x, y. split; [assumption | split; [assumption|]].
    rewrite Hd', Hd. simpl. ring.
Qed.

(** The put-call relation of the jump pricer on a valid input: call minus
    put is the sum, over the kept jump counts [n < 10], of [jump_prob]
    times [S e^(n mu_j) - K e^(-r T)]. *)
Theorem bates_put_call_relation F S K T r sigma lambda_param mu_j sigma_j :
  cdf_like F -> 0 < S -> 0 < K -> 0 < T -> sigma <> 0 ->
  exists call put,
    bates_simplified F S K T r sigma lambda_param mu_j sigma_j "call" = Some call /\
    bates_simplified F S K T r sigma lambda_param mu_j sigma_j "put" = Some put /\
    call - put = bates_kept_forward S K T r lambda_param mu_j (seq 0 10).
Proof.
  intros HF HS HK HT Hs. unfold bates_simplified. cbv zeta.
  destruct (bates_loop_parity F S K T r (vol_to_decimal sigma) lambda_param mu_j sigma_j
              (r - lambda_param * (exp (mu_j + 0.5 * sigma_j ^ 2) - 1)) (seq 0 10) 0 0
              HF HS HK HT (vol_to_decimal_neq0 sigma Hs))
    as (x & y & Hx & Hy & Hd).
  exists x, y. split; [assumption | split; [assumption | lra]].
Qed.

Lemma bates_put_call_relation_witness :
  exists call put,
    bates_simplified logistic 100 110 (30 / 365) 0.05 20 2 (-0.02) 0.05 "call" = Some call /\
    bates_simplified logistic 100 110 (30 / 365) 0.05 20 2 (-0.02) 0.05 "put" = Some put /\
    call - put = bates_kept_forward 100 110 (30 / 365) 0.05 2 (-0.02) (seq 0 10).
Proof. apply bates_put_call_relation; [apply logistic_cdf_like | lra | lra | lra | lra]. Defined.

(** ** The comparator: when it raises, which volatility the lattice sees *)

(** With positive spot and strikes, the pricing block of [get_options_data]
    raises exactly when [T <= 0] (an expiration today or in the past) or
    the volatility is 0: the BSM and lattice exceptions propagate, while
    every failure of the Bates pricer is caught. *)
Theorem price_options_raises_iff F S call_strike put_strike T risk_free_rate
    annual_volatility :
  0 < S -> 0 < call_strike -> 0 < put_strike ->
  price_options F S call_strike put_strike T risk_free_rate annual_volatility = None <->
  (T <= 0 \/ annual_volatility = 0).
Proof.
  intros HS Hc Hp. unfold price_options.
  destruct (Rle_dec T 0) as [HT | HT];
    [|destruct (Req_EM_T annual_volatility 0) as [Hs | Hs]].
  - rewrite (proj2 (bsm_raises_iff F S call_strike T risk_free_rate annual_volatility "call"))
      by auto.
    split; auto.
  - rewrite (proj2 (bsm_raises_iff F S call_strike T risk_free_rate annual_volatility "call"))
      by auto.
    split; auto.
  - destruct (black_scholes_merton F S call_strike T risk_free_rate annual_volatility "call")
      as [bc|] eqn:E1.
    2: { apply bsm_raises_iff in E1. exfalso.
         destruct E1 as [E | [E | [E | E]]]; try lra.
         assert (0 < S / call_strike) by (apply Rdiv_lt_0_compat; lra). lra. }
    destruct (black_scholes_merton F S put_strike T risk_free_rate annual_volatility "put")
      as [bp|] eqn:E2.
    2: { apply bsm_raises_iff in E2. exfalso.
         destruct E2 as [E | [E | [E | E]]]; try lra.
         assert (0 < S / put_strike) by (apply Rdiv_lt_0_compat; lra). lra. }
    assert (Hs' : annual_volatility / 100 <> 0) by (intros E; apply Hs; lra).
    rewrite !binomial_refines_crr by (try lia; lra).
    obind_simpl.
    split; [|intros [E | E]; lra].
    destruct (bates_approximation F S call_strike T risk_free_rate annual_volatility "call"),
      (bates_approximation F S put_strike T risk_free_rate annual_volatility "put");
      try destruct (sanity_check _ _ _ _); try destruct (sanity_check _ _ _ _);
      discriminate.
Qed.

Lemma price_options_raises_iff_witness :
  price_options logistic 100 110 90 0 0.05 20 = None <-> (0 <= 0 \/ 20 = 0).
Proof. apply price_options_raises_iff; lra. Defined.

(** The comparator hands the lattice [annual_volatility / 100], and the
    lattice divides again by 100 whatever exceeds 1: up to 100% the lattice
    prices at [annual_volatility / 100], above 100% at
    [annual_volatility / 10000]. *)
Theorem price_options_lattice_volatility F S call_strike put_strike T
    risk_free_rate annual_volatility :
  0 < S -> 0 < call_strike -> 0 < put_strike -> 0 < T -> 0 < annual_volatility ->
  exists call put errors,
    price_options F S call_strike put_strike T risk_free_rate annual_volatility =
      Some (call, put, errors) /\
    let s := if Rlt_dec 100 annual_volatility then annual_volatility / 10000
             else annual_volatility / 100 in
    binomial_price call =
      crr_reference S call_strike T risk_free_rate s "call" 100 false 0 /\
    binomial_price put =
      crr_reference S put_strike T risk_free_rate s "put" 100 false 0.
Proof.
  intros HS Hc Hp HT Hs.
  destruct (price_options F S call_strike put_strike T risk_free_rate annual_volatility)
    as [[[call put] errors]|] eqn:E.
  2: { apply (price_options_raises_iff F) in E; [|assumption..]. lra. }
  exists call, put, errors. split; [reflexivity|].
  destruct (price_options_result F _ _ _ _ _ _ _ _ _ E) as (Ec & Ep & _).
  rewrite binomial_refines_crr in Ec, Ep by (try lia; lra).
  injection Ec as Ec. injection Ep as Ep. cbv zeta.
  replace (vol_to_decimal (annual_volatility / 100))
    with (if Rlt_dec 100 annual_volatility then annual_volatility / 10000
          else annual_volatility / 100) in Ec, Ep.
  - split; symmetry; assumption.
  - unfold vol_to_decimal.
    destruct (Rlt_dec 100 annual_volatility), (Rlt_dec 1 (annual_volatility / 100));
      try (exfalso; lra); [field | reflexivity].
Qed.

Lemma price_options_lattice_volatility_witness :
  exists call put errors,
    price_options logistic 100 110 90 (30 / 365) 0.05 150 = Some (call, put, errors) /\
    let s := if Rlt_dec 100 150 then 150 / 10000 else 150 / 100 in
    binomial_price call = crr_reference 100 110 (30 / 365) 0.05 s "call" 100 false 0 /\
    binomial_price put = crr_reference 100 90 (30 / 365) 0.05 s "put" 100 false 0.
Proof. apply price_options_lattice_volatility; lra. Defined.

(** ** Strike and expiration selection in [get_options_data] *)





Section ExpirationProofs.

Variable days_to_expiration : string -> option Z.

Let first := first_expiration days_to_expiration.

(** The date parses and lies fewer than [t] days out. *)
Let short_of (t : Z) (x : string) : Prop :=
  exists d, days_to_expiration x = Some d /\ (d < t)%Z.

Lemma first_expiration_some t exps e :
  first t exps = Some (Some e) <->
  exists pre rest d, exps = pre ++ e :: rest /\ Forall (short_of t) pre /\
    days_to_expiration e = Some d /\ (t <= d)%Z.
Proof.
  subst first. induction exps as [|x xs IH]; simpl.
  - split; [discriminate|]. intros (pre & rest & d & Heq & _).
    destruct pre; discriminate.
  - destruct (days_to_expiration x) as [dx|] eqn:Hx; obind_simpl.
    + destruct (Z.leb t dx) eqn:Hle.
      * split.
        -- intros H. injection H as <-. exists [], xs, dx.
           repeat split; [constructor | assumption | apply Z.leb_le; assumption].
        -- intros (pre & rest & d & Heq & Hpre & Hd & Htd).
           destruct pre as [|y pre].
           ++ injection Heq as -> _. reflexivity.
           ++ injection Heq as -> _. inversion Hpre as [|? ? [d' [Hd' Hlt]]].
              rewrite Hx in Hd'. injection Hd' as <-. apply Z.leb_le in Hle. lia.
      * rewrite IH. split.
        -- intros (pre & rest & d & Heq & Hpre & Hd & Htd).
           exists (x :: pre), rest, d. rewrite Heq. repeat split; try assumption.
           constructor; [|assumption]. exists dx. split; [assumption|].
           apply Z.leb_gt. assumption.
        -- intros (pre & rest & d & Heq & Hpre & Hd & Htd).
           destruct pre as [|y pre].
           ++ injection Heq as -> _. rewrite Hx in Hd. injection Hd as <-.
              apply Z.leb_gt in Hle. lia.
           ++ injection Heq as -> Heq. inversion Hpre; subst.
              exists pre, rest, d. auto.
    + split; [discriminate|]. intros (pre & rest & d & Heq & Hpre & Hd & Htd).
      destruct pre as [|y pre].
      * injection Heq as -> _. congruence.
      * injection Heq as -> _. inversion Hpre as [|? ? [d' [Hd' _]]]. congruence.
Qed.

Lemma first_expiration_none t exps :
  first t exps = Some None <-> Forall (short_of t) exps.
Proof.
  subst first. induction exps as [|x xs IH]; simpl.
  - split; constructor.
  - destruct (days_to_expiration x) as [dx|] eqn:Hx; obind_simpl.
    + destruct (Z.leb t dx) eqn:Hle.
      * split; [discriminate|]. intros H. inversion H as [|? ? [d' [Hd' Hlt]]].
        rewrite Hx in Hd'. injection Hd' as <-. apply Z.leb_le in Hle. lia.
      * rewrite IH. split.
        -- intros H. constructor; [|assumption]. exists dx. split; [assumption|].
           apply Z.leb_gt. assumption.
        -- intros H. inversion H. assumption.
    + split; [discriminate|]. intros H. inversion H as [|? ? [d' [Hd' _]]]. congruence.
Qed.

(** Expiration choice in [get_options_data]: it succeeds with [e] exactly
    when the list is not empty and either [e] is the first date at least 30
    days out, with every earlier date parsed, or every date is parsed and
    fewer than 30 days out and [e] is the last one. *)
Theorem select_expiration_spec expirations e :
  select_expiration days_to_expiration expirations = Some e <->
  expirations <> [] /\
  ((exists pre rest d, expirations = pre ++ e :: rest /\
      Forall (short_of 30) pre /\ days_to_expiration e = Some d /\ (30 <= d)%Z) \/
   (Forall (short_of 30) expirations /\ e = last expirations EmptyString)).
Proof.
  unfold select_expiration.
  destruct expirations as [|x xs] eqn:Hexp.
  - split; [discriminate|]. intros [H _]. contradiction.
  - cbv zeta. rewrite <- Hexp.
    pose proof (first_expiration_some 30 expirations e) as Hs.
    pose proof (first_expiration_none 30 expirations) as Hn.
    subst first. cbv beta in Hs, Hn.
    destruct (first_expiration days_to_expiration 30 expirations) as [[e'|]|] eqn:Hf;
      obind_simpl.
    + split.
      * intros H. injection H as <-. split; [subst; discriminate|].
        left. apply Hs. reflexivity.
      * intros [_ [H | [H _]]].
        -- apply Hs in H. congruence.
        -- apply Hn in H. discriminate.
    + split.
      * intros H. injection H as <-. split; [subst; discriminate|].
        right. split; [apply Hn; reflexivity | reflexivity].
      * intros [_ [H | [_ H]]].
        -- apply Hs in H. discriminate.
        -- rewrite H. reflexivity.
    + split; [discriminate|].
      intros [_ [H | [H _]]].
      * apply Hs in H. discriminate.
      * apply Hn in H. discriminate.
Qed.

End ExpirationProofs.

(** ** [calculate_volatility] *)




Lemma length_pct_pairs prev xs : length (pct_pairs prev xs) = length xs.
Proof. revert prev; induction xs; simpl; auto. Qed.

Lemma length_dropna_pct_change xs :
  (length (dropna (pct_change xs)) <= length xs - 1)%nat.
Proof.
  destruct xs as [|x xs]; simpl; [lia|].
  rewrite Nat.sub_0_r, <- (length_pct_pairs x xs).
  unfold dropna. induction (pct_pairs x xs) as [|y ys IH]; simpl; [lia|].
  destruct y; simpl; lia.
Qed.

Lemma finite_values_length xs ys : finite_values xs = Some ys -> length ys = length xs.
Proof.
  revert ys; induction xs as [|x xs IH]; intros ys H; simpl in H.
  - injection H as <-. reflexivity.
  - destruct x; try discriminate.
    destruct (finite_values xs) as [zs|] eqn:Hz; obind_simpl; [|discriminate].
    injection H as <-. simpl. rewrite (IH zs eq_refl). reflexivity.
Qed.

Lemma length_tail n xs : length (tail n xs) = Nat.min n (length xs).
Proof. unfold tail. rewrite length_skipn. lia. Qed.

(** Fewer than three prices in the window, after [trading_days] is capped
    at the number of rows, leave at most one return, and [std] of one value
    is [nan]. *)
Theorem calculate_volatility_short_window closes trading_days :
  (Nat.min trading_days (length closes) <= 2)%nat ->
  calculate_volatility closes trading_days = NaN.
Proof.
  intros Hshort. unfold calculate_volatility. cbv zeta.
  set (td := if Nat.ltb (length closes) trading_days then length closes else trading_days).
  assert (Hlen : (length (tail td closes) <= 2)%nat).
  { rewrite length_tail. subst td.
    destruct (Nat.ltb_spec (length closes) trading_days); lia. }
  unfold series_std.
  destruct (finite_values (dropna (pct_change (tail td closes)))) as [ys|] eqn:Hf;
    [|reflexivity].
  apply finite_values_length in Hf.
  pose proof (length_dropna_pct_change (tail td closes)) as Hd.
  cbv zeta. replace (Nat.ltb (length ys) 2) with true; [reflexivity|].
  symmetry. apply Nat.ltb_lt. lia.
Qed.

Lemma pct_step_scale c prev x : 0 < c -> pct_step (c * prev) (c * x) = pct_step prev x.
Proof.
  intros Hc. unfold pct_step.
  destruct (Req_EM_T prev 0) as [Hp | Hp].
  - subst prev. rewrite Rmult_0_r.
    destruct (Req_EM_T 0 0) as [_|]; [|congruence].
    destruct (Req_EM_T x 0) as [Hx | Hx].
    + subst x. rewrite Rmult_0_r. destruct (Req_EM_T 0 0); [reflexivity | congruence].
    + destruct (Req_EM_T (c * x) 0) as [Hcx | _].
      { apply Rmult_integral in Hcx. destruct Hcx; [lra | contradiction]. }
      destruct (Rlt_dec (c * x) 0), (Rlt_dec x 0); try reflexivity; exfalso; nra.
  - destruct (Req_EM_T (c * prev) 0) as [Hcp | _].
    { apply Rmult_integral in Hcp. destruct Hcp; [lra | contradiction]. }
    f_equal. field. split; lra.
Qed.

Lemma pct_pairs_scale c prev xs :
  0 < c -> pct_pairs (c * prev) (map (Rmult c) xs) = pct_pairs prev xs.
Proof.
  intros Hc. revert prev. induction xs as [|x xs IH]; intros prev; simpl; [reflexivity|].
  rewrite pct_step_scale, IH by assumption. reflexivity.
Qed.

(** Multiplying every close by the same positive factor (a change of
    currency unit, a stock split applied to the whole history) leaves the
    volatility unchanged. *)
Theorem calculate_volatility_scale_invariant c closes trading_days :
  0 < c ->
  calculate_volatility (map (Rmult c) closes) trading_days
  = calculate_volatility closes trading_days.
Proof.
  intros Hc. unfold calculate_volatility. cbv zeta.
  rewrite length_map. unfold tail. rewrite length_map, skipn_map.
  destruct (skipn _ closes) as [|x xs]; [reflexivity|].
  simpl map. unfold pct_change. rewrite pct_pairs_scale by assumption.
  reflexivity.
Qed.

Lemma tail_app_long n pre xs :
  (n <= length xs)%nat -> tail n (pre ++ xs) = tail n xs.
Proof.
  intros Hn. unfold tail. rewrite length_app, skipn_app.
  rewrite skipn_all2 by lia. simpl. f_equal. lia.
Qed.

(** Only the last [trading_days] closes count: rows before them, when at
    least [trading_days] rows follow, do not change the result. *)
Theorem calculate_volatility_prefix_irrelevant pre closes trading_days :
  (trading_days <= length closes)%nat ->
  calculate_volatility (pre ++ closes) trading_days
  = calculate_volatility closes trading_days.
Proof.
  intros Hn. unfold calculate_volatility. cbv zeta.
  rewrite length_app.
  replace (Nat.ltb (length pre + length closes) trading_days) with false
    by (symmetry; apply Nat.ltb_ge; lia).
  replace (Nat.ltb (length closes) trading_days) with false
    by (symmetry; apply Nat.ltb_ge; lia).
  rewrite tail_app_long by assumption. reflexivity.
Qed.

Lemma pct_pairs_const p k : p <> 0 -> pct_pairs p (repeat p k) = repeat (Fin 0) k.
Proof.
  intros Hp. induction k as [|k IH]; simpl; [reflexivity|].
  rewrite IH. unfold pct_step.
  destruct (Req_EM_T p 0); [contradiction|]. f_equal. f_equal. field. assumption.
Qed.

Lemma dropna_fin0 k : dropna (repeat (Fin 0) k) = repeat (Fin 0) k.
Proof. induction k; simpl; [reflexivity|]. rewrite IHk. reflexivity. Qed.

Lemma finite_values_fin0 k : finite_values (repeat (Fin 0) k) = Some (repeat 0 k).
Proof. induction k; simpl; [reflexivity|]. rewrite IHk. reflexivity. Qed.

Lemma sum_list_zero ys : (forall y, In y ys -> y = 0) -> sum_list ys = 0.
Proof.
  induction ys as [|y ys IH]; intros H; simpl; [reflexivity|].
  rewrite (H y (or_introl eq_refl)), IH by (intros; apply H; right; assumption). ring.
Qed.

Lemma tail_repeat p n m : tail n (repeat p m) = repeat p (Nat.min n m).
Proof.
  unfold tail. rewrite repeat_length.
  replace m with ((m - n) + Nat.min n m)%nat at 2 by lia.
  rewrite repeat_app, skipn_app, repeat_length, skipn_all2 by (rewrite repeat_length; lia).
  rewrite Nat.sub_diag. reflexivity.
Qed.

(** A constant nonzero price, over a window of at least three closes,
    has volatility exactly zero. *)
Theorem calculate_volatility_constant p m trading_days :
  p <> 0 -> (3 <= m)%nat -> (3 <= trading_days)%nat ->
  calculate_volatility (repeat p m) trading_days = Fin 0.
Proof.
  intros Hp Hm Htd. unfold calculate_volatility. cbv zeta.
  rewrite repeat_length, tail_repeat.
  set (k := Nat.min _ m).
  assert (Hk : (3 <= k)%nat)
    by (subst k; destruct (Nat.ltb_spec m trading_days); lia).
  destruct k as [|k']; [lia|].
  simpl repeat. unfold pct_change. rewrite pct_pairs_const by assumption.
  unfold dropna. simpl filter. fold (dropna (repeat (Fin 0) k')).
  rewrite dropna_fin0. unfold series_std. rewrite finite_values_fin0, repeat_length.
  destruct (Nat.ltb_spec k' 2); [lia|]. cbv zeta.
  rewrite (sum_list_zero (repeat 0 k')) by (intros y Hy; apply repeat_spec in Hy; assumption).
  rewrite (sum_list_zero (map _ _)).
  - rewrite Rdiv_0_l, sqrt_0. simpl. f_equal. ring.
  - intros y Hy. apply in_map_iff in Hy. destruct Hy as (z & <- & Hz).
    apply repeat_spec in Hz. subst z. unfold Rdiv. ring.
Qed.

Lemma calculate_volatility_short_window_witness :
  (Nat.min 30 (length [100; 101]) <= 2)%nat /\
  calculate_volatility [100; 101] 30 = NaN.
Proof.
  split; [simpl; lia|].
  apply (calculate_volatility_short_window [100; 101] 30). simpl; lia.
Defined.

Lemma calculate_volatility_scale_invariant_witness :
  0 < 2 /\
  calculate_volatility (map (Rmult 2) [100; 101; 99; 102]) 30
  = calculate_volatility [100; 101; 99; 102] 30.
Proof.
  split; [lra|].
  apply (calculate_volatility_scale_invariant 2 [100; 101; 99; 102] 30). lra.
Defined.

Lemma calculate_volatility_prefix_irrelevant_witness :
  (3 <= length [100; 101; 99; 102])%nat /\
  calculate_volatility ([90; 95] ++ [100; 101; 99; 102]) 3
  = calculate_volatility [100; 101; 99; 102] 3.
Proof.
  split; [simpl; lia|].
  apply (calculate_volatility_prefix_irrelevant [90; 95] [100; 101; 99; 102] 3).
  simpl; lia.
Defined.

Lemma calculate_volatility_constant_witness :
  (50 <> 0 /\ (3 <= 40)%nat /\ (3 <= 30)%nat) /\
  calculate_volatility (repeat 50 40) 30 = Fin 0.
Proof.
  split; [split; [lra | split; lia]|].
  apply (calculate_volatility_constant 50 40 30); [lra | lia | lia].
Defined.
